(** * homecast: discovery of cast receivers and playback control

    A shallow embedding of [homecast.go] (package [homecast]) and of the parts
    of Go's [strings] and [net/url] packages that [tts] runs through,
    followed by the properties of the specification that were checked
    against it.

    Conventions.
    - A Go [string] is a sequence of bytes: [string] of 8-bit [ascii].
    - A Go [error] value is an element of [error]; a [nil] error is [None].
    - A function returning [(T, error)] returns [result T].
    - Calls into the device-control and discovery collaborators
      ([go-cast], [mdns]) are oracles over an abstract [World]; every call the
      program makes is also recorded, in order, in a trace of [Event]s. *)

From Stdlib Require Import String Ascii List ZArith NArith Bool Lia.
From stdpp Require Import gmap strings.
From Equations Require Import Equations.
Import ListNotations.

Local Open Scope string_scope.

(** Case analysis on a byte: its 256 values. *)
Ltac each_byte c := destruct c as [[] [] [] [] [] [] [] []].

(** [a] is the beginning of [b]. *)
Definition extends {A : Type} (a b : list A) : Prop :=
  exists more, b = (a ++ more)%list.

(** ** Errors and results *)

Inductive error : Type :=
| errors_New (msg : string)              (* errors.New, fmt.Errorf *)
| EscapeError (s : string)               (* url.EscapeError *)
| InvalidHostError (s : string)          (* url.InvalidHostError *)
| url_Error (Op URL : string) (Err : error). (* *url.Error *)

Inductive result (A : Type) : Type :=
| Ok (a : A)
| Err (e : error).
Arguments Ok {A} a.
Arguments Err {A} e.

Definition is_Ok {A} (r : result A) : bool :=
  match r with Ok _ => true | Err _ => false end.

Notation "'do' x <- e ; k" :=
  (match e with Ok x => k | Err err => Err err end)
  (at level 10, x pattern, e at level 99, k at level 200, only parsing).

(** ** Bytes and the [strings] package *)

Module strings.

Definition byte (c : ascii) : N := N_of_ascii c.

(** [lo <= c && c <= hi] on bytes. *)
Definition between (lo hi c : ascii) : bool :=
  (byte lo <=? byte c)%N && (byte c <=? byte hi)%N.

(** [s[i:]] and [s[:i]] for [i <= len(s)]. *)
Definition from (i : nat) (s : string) : string :=
  substring i (String.length s - i) s.
Definition upto (i : nat) (s : string) : string :=
  substring 0 i s.

(** [strings.HasPrefix(s, prefix)]. *)
Definition HasPrefix (s prefix : string) : bool :=
  (String.length prefix <=? String.length s)%nat
  && String.eqb (upto (String.length prefix) s) prefix.

(** [strings.HasSuffix(s, suffix)]. *)
Definition HasSuffix (s suffix : string) : bool :=
  (String.length suffix <=? String.length s)%nat
  && String.eqb (from (String.length s - String.length suffix) s) suffix.

(** [strings.IndexByte(s, c) >= 0]. *)
Fixpoint ContainsByte (s : string) (c : ascii) : bool :=
  match s with
  | EmptyString => false
  | String d s' => Ascii.eqb d c || ContainsByte s' c
  end.

(** [strings.Count(s, string(c))]. *)
Fixpoint CountByte (s : string) (c : ascii) : nat :=
  match s with
  | EmptyString => 0
  | String d s' => (if Ascii.eqb d c then 1 else 0) + CountByte s' c
  end.

(** [strings.Cut(s, string(sep))] for a one-byte separator: the text before
    and after the first [sep], and whether [sep] was found. *)
Fixpoint Cut (s : string) (sep : ascii) : string * string * bool :=
  match s with
  | EmptyString => (EmptyString, EmptyString, false)
  | String d s' =>
      if Ascii.eqb d sep then (EmptyString, s', true)
      else let '(before, after, found) := Cut s' sep in
           (String d before, after, found)
  end.

(** [strings.IndexByte(s, c)]; [None] stands for [-1]. *)
Fixpoint IndexByte (s : string) (c : ascii) : option nat :=
  match s with
  | EmptyString => None
  | String d s' =>
      if Ascii.eqb d c then Some 0
      else option_map S (IndexByte s' c)
  end.

(** [strings.LastIndexByte(s, c)]; [None] stands for [-1]. *)
Fixpoint LastIndexByte (s : string) (c : ascii) : option nat :=
  match s with
  | EmptyString => None
  | String d s' =>
      match LastIndexByte s' c with
      | Some i => Some (S i)
      | None => if Ascii.eqb d c then Some 0 else None
      end
  end.

(** [strings.Index(s, substr)]. *)
Definition Index (s substr : string) : option nat := String.index 0 substr s.

(** Every byte of [s] satisfies [p]. *)
Fixpoint all_bytes (p : ascii -> bool) (s : string) : bool :=
  match s with
  | EmptyString => true
  | String c s' => p c && all_bytes p s'
  end.

(** [strings.ToLower] on a string of ASCII bytes. *)
Definition lower (c : ascii) : ascii :=
  if between "A" "Z" c then ascii_of_N (byte c + 32) else c.
Fixpoint ToLower (s : string) : string :=
  match s with
  | EmptyString => EmptyString
  | String c s' => String (lower c) (ToLower s')
  end.

End strings.

(** ** [fmt.Sprintf] restricted to the [%s] verb over string operands *)

Module fmt.

(** For a format whose only verbs are [%s] and [%%]: each [%s] consumes the
    next operand, a missing operand prints as [%!s(MISSING)], [%%] prints a
    percent sign, and operands that remain after the format are reported as
    [%!(EXTRA ...)]. *)
Fixpoint Sprintf_verbs (format : string) (args : list string)
  : string * list string :=
  match format with
  | EmptyString => (EmptyString, args)
  | String "%" (String "s" rest) =>
      match args with
      | a :: args' =>
          let '(out, unused) := Sprintf_verbs rest args' in (a ++ out, unused)
      | [] =>
          let '(out, unused) := Sprintf_verbs rest [] in
          ("%!s(MISSING)" ++ out, unused)
      end
  | String "%" (String "%" rest) =>
      let '(out, unused) := Sprintf_verbs rest args in (String "%" out, unused)
  | String c rest =>
      let '(out, unused) := Sprintf_verbs rest args in (String c out, unused)
  end.

Fixpoint extra (args : list string) : string :=
  match args with
  | [] => EmptyString
  | [a] => "string=" ++ a
  | a :: args' => "string=" ++ a ++ ", " ++ extra args'
  end.

Definition Sprintf (format : string) (args : list string) : string :=
  let '(out, unused) := Sprintf_verbs format args in
  match unused with
  | [] => out
  | _ :: _ => out ++ "%!(EXTRA " ++ extra unused ++ ")"
  end.

End fmt.

(** ** The [net/url] package: escaping

    [tts] calls [url.QueryEscape] and [url.Parse]; the properties of its
    result are read with [URL.Query] and [URL.String]. These functions belong
    to the Go standard library, not to the repository: the module transcribes
    them, function by function and under their own names, from
    [net/url/url.go] (Go 1.21). A loop over the indices of a string is a
    recursion over its bytes; [strings.Cut], [strings.Index] and the like at
    a one-byte separator are the byte versions of the module above. *)

Module url.
Import strings.

Definition ishex (c : ascii) : bool :=
  between "0" "9" c || between "a" "f" c || between "A" "F" c.

Definition unhex (c : ascii) : N :=
  if between "0" "9" c then byte c - byte "0"
  else if between "a" "f" c then byte c - byte "a" + 10
  else if between "A" "F" c then byte c - byte "A" + 10
  else 0.

Inductive encoding : Type :=
| encodePath
| encodePathSegment
| encodeHost
| encodeZone
| encodeUserPassword
| encodeQueryComponent
| encodeFragment.

Definition encoding_eqb (a b : encoding) : bool :=
  match a, b with
  | encodePath, encodePath
  | encodePathSegment, encodePathSegment
  | encodeHost, encodeHost
  | encodeZone, encodeZone
  | encodeUserPassword, encodeUserPassword
  | encodeQueryComponent, encodeQueryComponent
  | encodeFragment, encodeFragment => true
  | _, _ => false
  end.

(** The double-quote byte. *)
Definition dquote : ascii := ascii_of_N 34.

(** [unhex(a)<<4 | unhex(b)], as a byte. *)
Definition hexbyte (a b : ascii) : ascii :=
  ascii_of_N ((N.lor (N.shiftl (unhex a) 4) (unhex b)) mod 256)%N.

(** [c] is one of the bytes of [set]. *)
Definition oneof (set : string) (c : ascii) : bool := ContainsByte set c.

(** [shouldEscape(c, mode)]: whether byte [c] must be percent-escaped when
    it appears in the part of a URL that [mode] names. *)
Definition shouldEscape (c : ascii) (mode : encoding) : bool :=
  if between "a" "z" c || between "A" "Z" c || between "0" "9" c then false
  else if (encoding_eqb mode encodeHost || encoding_eqb mode encodeZone)
          && (oneof "!$&'()*+,;=:[]<>" c || Ascii.eqb c dquote) then false
  else if oneof "-_.~" c then false
  else if oneof "$&+,/:;=?@" c then
    match mode with
    | encodePath => Ascii.eqb c "?"
    | encodePathSegment => oneof "/;,?" c
    | encodeUserPassword => oneof "@/?:" c
    | encodeQueryComponent => true
    | encodeFragment => false
    | encodeHost | encodeZone => true
    end
  else if encoding_eqb mode encodeFragment && oneof "!()*" c then false
  else true.

Definition upperhex : string := "0123456789ABCDEF".

(** [upperhex[i]]. *)
Definition hexdigit (i : N) : ascii :=
  match String.get (N.to_nat i) upperhex with
  | Some d => d
  | None => "0"%char
  end.

(** The counting pass of [escape]: [(spaceCount, hexCount)]. *)
Fixpoint escape_count (s : string) (mode : encoding) (spaceCount hexCount : nat)
  : nat * nat :=
  match s with
  | EmptyString => (spaceCount, hexCount)
  | String c s' =>
      if shouldEscape c mode then
        if Ascii.eqb c " " && encoding_eqb mode encodeQueryComponent
        then escape_count s' mode (S spaceCount) hexCount
        else escape_count s' mode spaceCount (S hexCount)
      else escape_count s' mode spaceCount hexCount
  end.

(** The branch of [escape] taken when only spaces need escaping. *)
Fixpoint escape_spaces (s : string) : string :=
  match s with
  | EmptyString => EmptyString
  | String c s' =>
      String (if Ascii.eqb c " " then "+"%char else c) (escape_spaces s')
  end.

(** The writing pass of [escape]. *)
Fixpoint escape_write (s : string) (mode : encoding) : string :=
  match s with
  | EmptyString => EmptyString
  | String c s' =>
      if Ascii.eqb c " " && encoding_eqb mode encodeQueryComponent then
        String "+" (escape_write s' mode)
      else if shouldEscape c mode then
        String "%"
          (String (hexdigit (N.shiftr (byte c) 4))
             (String (hexdigit (N.land (byte c) 15)) (escape_write s' mode)))
      else String c (escape_write s' mode)
  end.

Definition escape (s : string) (mode : encoding) : string :=
  let '(spaceCount, hexCount) := escape_count s mode 0 0 in
  if (spaceCount =? 0)%nat && (hexCount =? 0)%nat then s
  else if (hexCount =? 0)%nat then escape_spaces s
  else escape_write s mode.

Definition QueryEscape (s : string) : string := escape s encodeQueryComponent.

(** The two counts of the counting pass of [escape] on a query component. *)
Definition spaceCount (s : string) : nat :=
  fst (escape_count s encodeQueryComponent 0 0).
Definition hexCount (s : string) : nat :=
  snd (escape_count s encodeQueryComponent 0 0).

(** What the writing pass of [escape] puts out for one byte of a query
    component. *)
Definition escape_byte (c : ascii) : string :=
  escape_write (String c EmptyString) encodeQueryComponent.

(** The bytes an escaped query component is made of: letters, digits,
    [- _ . ~], the plus sign and the percent sign. *)
Definition query_byte (c : ascii) : bool :=
  between "a" "z" c || between "A" "Z" c || between "0" "9" c
  || oneof "-_.~+%" c.

(** The bytes of the query [tts] writes: query bytes, [&] and [=]. *)
Definition template_byte (c : ascii) : bool := query_byte c || oneof "&=" c.

(** The bytes of the address [tts] writes: template bytes and [: / ?]. *)
Definition address_byte (c : ascii) : bool := template_byte c || oneof ":/?" c.

(** The checking pass of [unescape]: the number [n] of percent signs and
    [hasPlus], or the error for the first malformed or forbidden byte. *)
Fixpoint unescape_check (s : string) (mode : encoding) (n : nat) (hasPlus : bool)
  : result (nat * bool) :=
  match s with
  | EmptyString => Ok (n, hasPlus)
  | String "%" rest =>
      match rest with
      | String a (String b s') =>
          if negb (ishex a) || negb (ishex b) then Err (EscapeError (upto 3 s))
          else if encoding_eqb mode encodeHost
                  && (unhex a <? 8)%N
                  && negb (String.eqb (upto 3 s) "%25")
          then Err (EscapeError (upto 3 s))
          else if encoding_eqb mode encodeZone
                  && negb (String.eqb (upto 3 s) "%25")
                  && negb (Ascii.eqb (hexbyte a b) " ")
                  && shouldEscape (hexbyte a b) encodeHost
          then Err (EscapeError (upto 3 s))
          else unescape_check s' mode (S n) hasPlus
      | _ => Err (EscapeError (upto 3 s))
      end
  | String "+" s' =>
      unescape_check s' mode n (encoding_eqb mode encodeQueryComponent)
  | String c s' =>
      if (encoding_eqb mode encodeHost || encoding_eqb mode encodeZone)
         && (byte c <? 128)%N && shouldEscape c encodeHost
      then Err (InvalidHostError (String c EmptyString))
      else unescape_check s' mode n hasPlus
  end.

(** The writing pass of [unescape]. It runs only on strings that passed
    [unescape_check], where every percent sign is followed by two bytes;
    [None] is the out-of-range index it would otherwise hit. *)
Fixpoint unescape_write (s : string) (mode : encoding) : option string :=
  match s with
  | EmptyString => Some EmptyString
  | String "%" rest =>
      match rest with
      | String a (String b s') =>
          option_map (String (hexbyte a b)) (unescape_write s' mode)
      | _ => None
      end
  | String "+" s' =>
      option_map
        (String (if encoding_eqb mode encodeQueryComponent then " " else "+")%char)
        (unescape_write s' mode)
  | String c s' => option_map (String c) (unescape_write s' mode)
  end.

Definition unescape (s : string) (mode : encoding) : result string :=
  match unescape_check s mode 0 false with
  | Err e => Err e
  | Ok (n, hasPlus) =>
      if (n =? 0)%nat && negb hasPlus then Ok s
      else match unescape_write s mode with
           | Some t => Ok t
           | None => Err (EscapeError s)
           end
  end.

Definition QueryUnescape (s : string) : result string :=
  unescape s encodeQueryComponent.

(** ** The [net/url] package: parsing *)

(** [url.Userinfo]. *)
Record Userinfo : Type := {
  username : string;
  password : string;
  passwordSet : bool
}.

(** [url.URL]. *)
Record URL : Type := {
  Scheme : string;
  Opaque : string;
  User : option Userinfo;
  Host : string;
  Path : string;
  RawPath : string;
  OmitHost : bool;
  ForceQuery : bool;
  RawQuery : string;
  Fragment : string;
  RawFragment : string
}.

(** [new(URL)]: every field at its zero value. *)
Definition new_URL : URL :=
  {| Scheme := ""; Opaque := ""; User := None; Host := ""; Path := "";
     RawPath := ""; OmitHost := false; ForceQuery := false; RawQuery := "";
     Fragment := ""; RawFragment := "" |}.

Definition nonempty (s : string) : bool := negb (String.eqb s "").

(** [stringContainsCTLByte]: a byte below 0x20, or 0x7f. *)
Fixpoint stringContainsCTLByte (s : string) : bool :=
  match s with
  | EmptyString => false
  | String b s' =>
      (byte b <? byte " ")%N || (byte b =? 127)%N || stringContainsCTLByte s'
  end.

(** The loop of [getScheme]; [rest] is [rawURL[i:]]. *)
Fixpoint getScheme_loop (rawURL : string) (i : nat) (rest : string)
  : result (string * string) :=
  match rest with
  | EmptyString => Ok ("", rawURL)
  | String c rest' =>
      if between "a" "z" c || between "A" "Z" c then
        getScheme_loop rawURL (S i) rest'
      else if between "0" "9" c || oneof "+-." c then
        if (i =? 0)%nat then Ok ("", rawURL)
        else getScheme_loop rawURL (S i) rest'
      else if Ascii.eqb c ":" then
        if (i =? 0)%nat then Err (errors_New "missing protocol scheme")
        else Ok (upto i rawURL, rest')
      else Ok ("", rawURL)
  end.

Definition getScheme (rawURL : string) : result (string * string) :=
  getScheme_loop rawURL 0 rawURL.

Fixpoint all_digits (s : string) : bool :=
  match s with
  | EmptyString => true
  | String b s' => between "0" "9" b && all_digits s'
  end.

Definition validOptionalPort (port : string) : bool :=
  match port with
  | EmptyString => true
  | String c digits => Ascii.eqb c ":" && all_digits digits
  end.

Fixpoint validUserinfo (s : string) : bool :=
  match s with
  | EmptyString => true
  | String r s' =>
      (between "A" "Z" r || between "a" "z" r || between "0" "9" r
       || oneof "-._:~!$&'()*+,;=%@" r)
      && validUserinfo s'
  end.

Definition parseHost (host : string) : result string :=
  let plain :=
    do h <- unescape host encodeHost; Ok h in
  if HasPrefix host "[" then
    match LastIndexByte host "]" with
    | None => Err (errors_New "missing ']' in host")
    | Some i =>
        let colonPort := from (S i) host in
        if negb (validOptionalPort colonPort) then
          Err (errors_New ("invalid port " ++ String dquote colonPort ++ String dquote " after host"))
        else
          match Index (upto i host) "%25" with
          | Some zone =>
              do host1 <- unescape (upto zone host) encodeHost;
              do host2 <- unescape (substring zone (i - zone) host) encodeZone;
              do host3 <- unescape (from i host) encodeHost;
              Ok (host1 ++ host2 ++ host3)
          | None => plain
          end
    end
  else
    match LastIndexByte host ":" with
    | Some i =>
        let colonPort := from i host in
        if negb (validOptionalPort colonPort) then
          Err (errors_New ("invalid port " ++ String dquote colonPort ++ String dquote " after host"))
        else plain
    | None => plain
    end.

Definition parseAuthority (authority : string)
  : result (option Userinfo * string) :=
  match LastIndexByte authority "@" with
  | None =>
      do host <- parseHost authority;
      Ok (None, host)
  | Some i =>
      do host <- parseHost (from (S i) authority);
      let userinfo := upto i authority in
      if negb (validUserinfo userinfo) then
        Err (errors_New "net/url: invalid userinfo")
      else if negb (ContainsByte userinfo ":") then
        do userinfo' <- unescape userinfo encodeUserPassword;
        Ok (Some {| username := userinfo'; password := "";
                    passwordSet := false |}, host)
      else
        let '(username0, password0, _) := Cut userinfo ":" in
        do username' <- unescape username0 encodeUserPassword;
        do password' <- unescape password0 encodeUserPassword;
        Ok (Some {| username := username'; password := password';
                    passwordSet := true |}, host)
  end.

(** [URL.setPath]: the [(Path, RawPath)] pair for the raw path [p]. *)
Definition setPath (p : string) : result (string * string) :=
  do path <- unescape p encodePath;
  if String.eqb p (escape path encodePath) then Ok (path, "")
  else Ok (path, p).

(** [URL.setFragment]: the [(Fragment, RawFragment)] pair. *)
Definition setFragment (f : string) : result (string * string) :=
  do frag <- unescape f encodeFragment;
  if String.eqb f (escape frag encodeFragment) then Ok (frag, "")
  else Ok (frag, f).

(** [parse(rawURL, viaRequest)]. *)
Definition parse (rawURL : string) (viaRequest : bool) : result URL :=
  if stringContainsCTLByte rawURL then
    Err (errors_New "net/url: invalid control character in URL")
  else if String.eqb rawURL "" && viaRequest then
    Err (errors_New "empty url")
  else if String.eqb rawURL "*" then
    Ok {| Scheme := ""; Opaque := ""; User := None; Host := ""; Path := "*";
          RawPath := ""; OmitHost := false; ForceQuery := false;
          RawQuery := ""; Fragment := ""; RawFragment := "" |}
  else
    do (scheme0, rest0) <- getScheme rawURL;
    let scheme := ToLower scheme0 in
    let '(rest1, rawQuery, forceQuery) :=
      if HasSuffix rest0 "?" && (CountByte rest0 "?" =? 1)%nat
      then (upto (String.length rest0 - 1) rest0, "", true)
      else let '(before, after, _) := Cut rest0 "?" in (before, after, false) in
    let continue (omitHost : bool) (user : option Userinfo) (host rest : string) :=
      do (path, rawPath) <- setPath rest;
      Ok {| Scheme := scheme; Opaque := ""; User := user; Host := host;
            Path := path; RawPath := rawPath; OmitHost := omitHost;
            ForceQuery := forceQuery; RawQuery := rawQuery;
            Fragment := ""; RawFragment := "" |} in
    let authority_or_path (_ : unit) :=
      if (nonempty scheme || negb viaRequest && negb (HasPrefix rest1 "///"))
         && HasPrefix rest1 "//"
      then
        let authority0 := from 2 rest1 in
        let '(authority, rest2) :=
          match IndexByte authority0 "/" with
          | Some i => (upto i authority0, from i authority0)
          | None => (authority0, "")
          end in
        do (user, host) <- parseAuthority authority;
        continue false user host rest2
      else if nonempty scheme && HasPrefix rest1 "/" then
        continue true None "" rest1
      else continue false None "" rest1 in
    if negb (HasPrefix rest1 "/") then
      if nonempty scheme then
        Ok {| Scheme := scheme; Opaque := rest1; User := None; Host := "";
              Path := ""; RawPath := ""; OmitHost := false;
              ForceQuery := forceQuery; RawQuery := rawQuery;
              Fragment := ""; RawFragment := "" |}
      else if viaRequest then
        Err (errors_New "invalid URI for request")
      else
        let '(segment, _, _) := Cut rest1 "/" in
        if ContainsByte segment ":" then
          Err (errors_New "first path segment in URL cannot contain colon")
        else authority_or_path tt
    else authority_or_path tt.

(** [url.Parse]. *)
Definition Parse (rawURL : string) : result URL :=
  let '(u, frag, _) := Cut rawURL "#" in
  match parse u false with
  | Err err => Err (url_Error "parse" u err)
  | Ok url =>
      if String.eqb frag "" then Ok url
      else
        match setFragment frag with
        | Err err => Err (url_Error "parse" rawURL err)
        | Ok (fragment, rawFragment) =>
            Ok {| Scheme := Scheme url; Opaque := Opaque url; User := User url;
                  Host := Host url; Path := Path url; RawPath := RawPath url;
                  OmitHost := OmitHost url; ForceQuery := ForceQuery url;
                  RawQuery := RawQuery url;
                  Fragment := fragment; RawFragment := rawFragment |}
        end
  end.

(** ** The [net/url] package: printing and query values *)

(** [Userinfo.String]. *)
Definition Userinfo_String (u : option Userinfo) : string :=
  match u with
  | None => ""
  | Some u =>
      let s := escape (username u) encodeUserPassword in
      if passwordSet u then s ++ ":" ++ escape (password u) encodeUserPassword
      else s
  end.

Fixpoint validEncoded (s : string) (mode : encoding) : bool :=
  match s with
  | EmptyString => true
  | String c s' =>
      if oneof "!$&'()*+,;=:@[]%" c then validEncoded s' mode
      else if shouldEscape c mode then false
      else validEncoded s' mode
  end.

Definition unescapes_to (raw : string) (mode : encoding) (want : string) : bool :=
  match unescape raw mode with
  | Ok p => String.eqb p want
  | Err _ => false
  end.

(** [URL.EscapedPath]. *)
Definition EscapedPath (u : URL) : string :=
  if nonempty (RawPath u) && validEncoded (RawPath u) encodePath
     && unescapes_to (RawPath u) encodePath (Path u)
  then RawPath u
  else if String.eqb (Path u) "*" then "*"
  else escape (Path u) encodePath.

(** [URL.EscapedFragment]. *)
Definition EscapedFragment (u : URL) : string :=
  if nonempty (RawFragment u) && validEncoded (RawFragment u) encodeFragment
     && unescapes_to (RawFragment u) encodeFragment (Fragment u)
  then RawFragment u
  else escape (Fragment u) encodeFragment.

(** [URL.String]: the text written to the buffer, stage by stage. *)
Definition String_ (u : URL) : string :=
  let buf0 := if nonempty (Scheme u) then Scheme u ++ ":" else "" in
  let buf1 :=
    if nonempty (Opaque u) then buf0 ++ Opaque u
    else
      let has_user := match User u with Some _ => true | None => false end in
      let buf :=
        if nonempty (Scheme u) || nonempty (Host u) || has_user then
          if OmitHost u && negb (nonempty (Host u)) && negb has_user then buf0
          else
            let b1 :=
              if nonempty (Host u) || nonempty (Path u) || has_user
              then buf0 ++ "//" else buf0 in
            let b2 :=
              if has_user then b1 ++ Userinfo_String (User u) ++ "@" else b1 in
            if nonempty (Host u) then b2 ++ escape (Host u) encodeHost else b2
        else buf0 in
      let path := EscapedPath u in
      let buf' :=
        if nonempty path && negb (HasPrefix path "/") && nonempty (Host u)
        then buf ++ "/" else buf in
      let buf'' :=
        if String.eqb buf' "" then
          let '(segment, _, _) := Cut path "/" in
          if ContainsByte segment ":" then buf' ++ "./" else buf'
        else buf' in
      buf'' ++ path in
  let buf2 :=
    if ForceQuery u || nonempty (RawQuery u)
    then buf1 ++ "?" ++ RawQuery u else buf1 in
  if nonempty (Fragment u) then buf2 ++ "#" ++ EscapedFragment u else buf2.

(** [url.Values] is [map[string][]string]. *)
Abbreviation Values := (gmap string (list string)).

(** One iteration of the loop of [parseQuery] on the segment [key]: the
    updated map and the updated first error. *)
Definition parseQuery_body (m : Values) (err : option error) (key : string)
  : Values * option error :=
  if ContainsByte key ";" then
    (m, Some (errors_New "invalid semicolon separator in query"))
  else if String.eqb key "" then (m, err)
  else
    let '(key0, value0, _) := Cut key "=" in
    let first (err1 : error) :=
      match err with None => Some err1 | Some _ => err end in
    match QueryUnescape key0 with
    | Err err1 => (m, first err1)
    | Ok key1 =>
        match QueryUnescape value0 with
        | Err err1 => (m, first err1)
        | Ok value1 =>
            (<[key1 := (default [] (m !! key1) ++ [value1])%list]> m, err)
        end
    end.

(** [parseQuery]: [for query != "" { key, query, _ = strings.Cut(query, "&"); ... }]. *)
Equations parseQuery (m : Values) (err : option error) (query : string)
  : Values * option error by wf (String.length query) lt :=
  parseQuery m err EmptyString := (m, err);
  parseQuery m err (String c s) :=
    let st := parseQuery_body m err (fst (fst (Cut (String c s) "&"))) in
    parseQuery (fst st) (snd st) (snd (fst (Cut (String c s) "&"))).
Next Obligation.
  assert (H : forall t, String.length (snd (fst (Cut t "&"))) <= String.length t).
  { induction t as [|d t IH]; simpl; [lia|].
    destruct (Ascii.eqb d "&"); simpl; [lia|].
    destruct (Cut t "&") as [[before after] found]; simpl in *; lia. }
  specialize (H s). simpl.
  destruct (Ascii.eqb c "&"); simpl; [lia|].
  destruct (Cut s "&") as [[before after] found]; simpl in *; lia.
Qed.

(** [url.ParseQuery]. *)
Definition ParseQuery (query : string) : Values * option error :=
  parseQuery ∅ None query.

(** [URL.Query]: the parsed [RawQuery], errors dropped. *)
Definition Query (u : URL) : Values := fst (ParseQuery (RawQuery u)).

(** [Values.Get]. *)
Definition Get (v : Values) (key : string) : string :=
  match v !! key with
  | Some (x :: _) => x
  | _ => ""
  end.

End url.

(** ** The collaborators: [go-cast], [go-cast/controllers] and [mdns] *)

Module controllers.

(** Modelled from the spec: the metadata of a ContentReference (section 3),
    [controllers.MediaMetaData] of go-cast, whose declaration is not part of
    the repository; the source sets its fields [MetaDataType] and [Title]. *)
Record MediaMetaData : Type := {
  MetaDataType : Z;
  Title : string
}.

(** Modelled from the spec: the ContentReference of section 3,
    [controllers.MediaItem] of go-cast, whose declaration is not part of the
    repository; the source sets [ContentId], [StreamType], [ContentType] and,
    on the queue paths only, [MetaData]. *)
Record MediaItem : Type := {
  ContentId : string;
  StreamType : string;
  ContentType : string;
  MetaData : MediaMetaData
}.

(** The zero values a Go composite literal leaves in the fields it does not
    name. *)
Definition zero_MediaMetaData : MediaMetaData :=
  {| MetaDataType := 0; Title := "" |}.
Definition zero_MediaItem : MediaItem :=
  {| ContentId := ""; StreamType := ""; ContentType := "";
     MetaData := zero_MediaMetaData |}.

End controllers.

Module mdns.

(** Modelled from the spec: the Advertisement of section 3,
    [mdns.ServiceEntry], whose declaration is not part of the repository; the
    source reads [Name], [AddrV4], [Port] and [InfoFields]. *)
Record ServiceEntry : Type := {
  Name : string;
  AddrV4 : string;
  Port : Z;
  InfoFields : list string
}.

End mdns.

Module cast.

(** Modelled from the spec: the control-session handle of a Device (section
    3), [*cast.Client]. [NewClient] allocates a new client for an address and
    a port; [id] is the identity of that allocation. *)
Record Client : Type := {
  id : nat;
  host : string;
  port : Z
}.

End cast.

Import controllers mdns cast.

(** The lines the program writes with [log.Printf] and [log.Print], one
    constructor per call site, carrying the operands. *)
Inductive LogLine : Type :=
| LogLoadMedia (content_id : string)      (* [INFO] Load media: content_id=%s *)
| LogQueueLoad                            (* [INFO] Queue load *)
| LogQueueInsert                          (* [INFO] Queue insert *)
| LogServiceEntry (entry : ServiceEntry)  (* [INFO] ServiceEntry detected: ... *)
| LogConnectFailed (err : error)          (* [ERROR] Failed to connect: %s *)
| LogLookupFailed (err : error).          (* [Error] Failed to lookup devices: %v *)

(** What the program does to the outside, in the order it does it. The last
    operand of a call is the error the collaborator answered with. *)
Inductive Event : Type :=
| EvLog (line : LogLine)
| EvNewClient (c : Client)
| EvConnect (c : Client) (err : option error)
| EvClose (c : Client)
| EvMedia (c : Client) (err : option error)
| EvLoadMedia (c : Client) (item : MediaItem) (currentTime : Z)
    (autoplay : bool) (customData : option string) (err : option error)
| EvQueueLoad (c : Client) (items : list MediaItem) (startIndex : Z)
    (customData : option string) (err : option error)
| EvQueueInsert (c : Client) (items : list MediaItem)
    (customData : option string) (err : option error)
| EvLookup (service : string) (err : option error)
| EvCloseChannel.

(** The load-media commands of a trace, with the client they went to, the
    item, the start position and the autoplay flag. *)
Definition load_media_commands (evs : list Event)
  : list (Client * MediaItem * Z * bool) :=
  flat_map (fun ev => match ev with
                      | EvLoadMedia c item currentTime autoplay _ _ =>
                          [(c, item, currentTime, autoplay)]
                      | _ => []
                      end) evs.

(** The queue-load commands of a trace, with the client, the items and the
    start index. *)
Definition queue_load_commands (evs : list Event)
  : list (Client * list MediaItem * Z) :=
  flat_map (fun ev => match ev with
                      | EvQueueLoad c items startIndex _ _ =>
                          [(c, items, startIndex)]
                      | _ => []
                      end) evs.

(** The connection attempts of a trace, with what each was answered. *)
Definition connect_attempts (evs : list Event) : list (Client * option error) :=
  flat_map (fun ev => match ev with
                      | EvConnect c err => [(c, err)]
                      | _ => []
                      end) evs.

(** How many times a trace closes the channel. *)
Definition close_count (evs : list Event) : nat :=
  length (flat_map (fun ev => match ev with
                              | EvCloseChannel => [tt]
                              | _ => []
                              end) evs).

(** The queue-insert commands of a trace, with the client and the items. *)
Definition queue_insert_commands (evs : list Event)
  : list (Client * list MediaItem) :=
  flat_map (fun ev => match ev with
                      | EvQueueInsert c items _ _ => [(c, items)]
                      | _ => []
                      end) evs.

(** The events that make, open or close a control session. *)
Definition session_event (ev : Event) : bool :=
  match ev with
  | EvNewClient _ | EvConnect _ _ | EvClose _ => true
  | _ => false
  end.

(** The events of discovery: log lines, clients made, connections attempted,
    the lookup and the close of the channel. *)
Definition discovery_event (ev : Event) : bool :=
  match ev with
  | EvLog _ | EvNewClient _ | EvConnect _ _ | EvLookup _ _ | EvCloseChannel => true
  | _ => false
  end.

Definition session_events (evs : list Event) : list Event :=
  List.filter session_event evs.

(** The clients a trace makes, in order. *)
Definition new_clients (evs : list Event) : list Client :=
  flat_map (fun ev => match ev with
                      | EvNewClient c => [c]
                      | _ => []
                      end) evs.

(** The errors of the connection failures a trace logs, in order. *)
Definition logged_failures (evs : list Event) : list error :=
  flat_map (fun ev => match ev with
                      | EvLog (LogConnectFailed err) => [err]
                      | _ => []
                      end) evs.

(** Modelled from the spec: the device-control collaborator of section 6
    (go-cast, not part of the repository), taken as a parameter: the answer
    of each call, and the world the call leaves behind. The execution context
    every call takes is part of the world: a cancelled context shows as an
    error answer. *)
Class Cast (World : Type) : Type := {
  client_Connect : Client -> World -> option error * World;
  client_Close : Client -> World -> World;
  client_Media : Client -> World -> option error * World;
  media_LoadMedia :
    Client -> MediaItem -> Z -> bool -> option string -> World -> option error * World;
  media_QueueLoad :
    Client -> list MediaItem -> Z -> option string -> World -> option error * World;
  media_QueueInsert :
    Client -> list MediaItem -> option string -> World -> option error * World
}.

(** ** Package [homecast] *)

Module homecast.
Import strings url.

Definition googleCastServiceName : string := "_googlecast._tcp".
Definition googleHomeModelInfo : string := "md=Google Home".

(** [CastDevice]: the embedded service entry and the cast client. *)
Record CastDevice : Type := {
  ServiceEntry : mdns.ServiceEntry;
  client : Client
}.

(** [MediaData]. The [*url.URL] is modelled by the URL it points to. *)
Record MediaData : Type := {
  URL : url.URL;
  Title : string
}.

(** [tts]. *)
Definition tts (text lang : string) : result url.URL :=
  let base :=
    "https://translate.google.com/translate_tts?client=tw-ob&ie=UTF-8&q=%s&tl=%s" in
  Parse (fmt.Sprintf base [QueryEscape text; QueryEscape lang]).

(** What [tts] is compared with: the address its template spells for two
    operands already escaped, and the parts of that address as a URL. *)
Definition tts_address (q tl : string) : string :=
  "https://translate.google.com/translate_tts?client=tw-ob&ie=UTF-8&q="
  ++ q ++ "&tl=" ++ tl.
Definition tts_url (q tl : string) : url.URL :=
  {| Scheme := "https"; Opaque := ""; User := None;
     Host := "translate.google.com"; Path := "/translate_tts";
     RawPath := ""; OmitHost := false; ForceQuery := false;
     RawQuery := "client=tw-ob&ie=UTF-8&q=" ++ q ++ "&tl=" ++ tl;
     Fragment := ""; RawFragment := "" |}.

Section Device.
Context {World : Type} `{Cast World}.

(** The state a call runs in: the world of the collaborators, the trace of
    what was done so far, and the next free client identity. *)
Record Env : Type := {
  world : World;
  trace : list Event;
  fresh : nat
}.

(** State passing, with a notation for sequencing. *)
Definition M (A : Type) : Type := Env -> A * Env.
Definition ret {A} (a : A) : M A := fun st => (a, st).
Definition bind {A B} (m : M A) (k : A -> M B) : M B :=
  fun st => let '(a, st') := m st in k a st'.

Notation "'let*' x ':=' m 'in' k" := (bind m (fun x => k))
  (at level 10, x name, m at level 99, k at level 200, only parsing).

(** A collaborator call: ask the oracle, record the call and its answer. *)
Definition call (oracle : World -> option error * World)
    (event : option error -> Event) : M (option error) :=
  fun st =>
    let '(err, w) := oracle (world st) in
    (err, {| world := w; trace := trace st ++ [event err]; fresh := fresh st |}).

Definition log (line : LogLine) : M unit :=
  fun st =>
    (tt, {| world := world st; trace := trace st ++ [EvLog line];
            fresh := fresh st |}).

(** [cast.NewClient(host, port)]. *)
Definition NewClient (host : string) (port : Z) : M Client :=
  fun st =>
    let c := {| id := fresh st; host := host; port := port |} in
    (c, {| world := world st; trace := trace st ++ [EvNewClient c];
           fresh := S (fresh st) |}).

(** [CastDevice.Connect]. *)
Definition Connect (g : CastDevice) : M (option error) :=
  call (client_Connect (client g)) (EvConnect (client g)).

(** [CastDevice.Close]. *)
Definition Close (g : CastDevice) : M unit :=
  fun st =>
    (tt, {| world := client_Close (client g) (world st);
            trace := trace st ++ [EvClose (client g)]; fresh := fresh st |}).

(** [CastDevice.Play]. *)
Definition Play (g : CastDevice) (url : url.URL) : M (option error) :=
  let* err := call (client_Media (client g)) (EvMedia (client g)) in
  match err with
  | Some err => ret (Some err)
  | None =>
      let mediaItem :=
        {| ContentId := String_ url;
           ContentType := "audio/mp3";
           StreamType := "BUFFERED";
           MetaData := zero_MediaMetaData |} in
      let* _ := log (LogLoadMedia (ContentId mediaItem)) in
      let* err := call (media_LoadMedia (client g) mediaItem 0 true None)
                       (EvLoadMedia (client g) mediaItem 0 true None) in
      ret err
  end.

(** [CastDevice.Speak]. *)
Definition Speak (g : CastDevice) (text lang : string) : M (option error) :=
  match tts text lang with
  | Err err => ret (Some err)
  | Ok url => Play g url
  end.

(** The item both queue operations build from one [MediaData]. *)
Definition queue_item (d : MediaData) : MediaItem :=
  {| ContentId := String_ (URL d);
     StreamType := "BUFFERED";
     ContentType := "audio/mp3";
     MetaData := {| MetaDataType := 3; controllers.Title := Title d |} |}.

(** [for i, d := range data { items[i] = ... }], from index [i] on. *)
Fixpoint fill_items (i : nat) (data : list MediaData) (items : list MediaItem)
  : list MediaItem :=
  match data with
  | [] => items
  | d :: data' => fill_items (S i) data' (<[i := queue_item d]> items)
  end.

(** [items := make([]controllers.MediaItem, len(data))] and the loop. *)
Definition build_items (data : list MediaData) : list MediaItem :=
  fill_items 0 data (replicate (length data) zero_MediaItem).

(** [CastDevice.QueueLoad]. *)
Definition QueueLoad (g : CastDevice) (data : list MediaData) : M (option error) :=
  let* err := call (client_Media (client g)) (EvMedia (client g)) in
  match err with
  | Some err => ret (Some err)
  | None =>
      let items := build_items data in
      let* _ := log LogQueueLoad in
      let* err := call (media_QueueLoad (client g) items 0 None)
                       (EvQueueLoad (client g) items 0 None) in
      ret err
  end.

(** [CastDevice.QueueInsert]. *)
Definition QueueInsert (g : CastDevice) (data : list MediaData) : M (option error) :=
  let* err := call (client_Media (client g)) (EvMedia (client g)) in
  match err with
  | Some err => ret (Some err)
  | None =>
      let items := build_items data in
      let* _ := log LogQueueInsert in
      let* err := call (media_QueueInsert (client g) items None)
                       (EvQueueInsert (client g) items None) in
      ret err
  end.

(** *** [LookupAndConnect]

    The function starts a goroutine, the collector, that receives from the
    channel [entriesCh] while the function itself is inside [mdns.Lookup],
    which sends to it. Both run on the variables below. *)

(** What the collector works on: the environment and the slice [results]. *)
Record Collector : Type := {
  env : Env;
  results : list CastDevice
}.

(** One iteration of [for _, field := range entry.InfoFields]. *)
Definition collect_field (entry : mdns.ServiceEntry) (field : string)
    (st : Collector) : Collector :=
  if HasPrefix field googleHomeModelInfo then
    let '(client, env1) := NewClient (AddrV4 entry) (Port entry) (env st) in
    let '(err, env2) := call (client_Connect client) (EvConnect client) env1 in
    match err with
    | Some err =>
        {| env := snd (log (LogConnectFailed err) env2); results := results st |}
    | None =>
        {| env := env2;
           results := results st ++ [{| ServiceEntry := entry; client := client |}] |}
    end
  else st.

(** The inner loop over the fields still to visit. *)
Definition collect_fields (entry : mdns.ServiceEntry) (fields : list string)
    (st : Collector) : Collector :=
  fold_left (fun st field => collect_field entry field st) fields st.

(** One iteration of [for entry := range entriesCh]. *)
Definition collect_entry (entry : mdns.ServiceEntry) (st : Collector) : Collector :=
  collect_fields entry (InfoFields entry)
    {| env := snd (log (LogServiceEntry entry) (env st)); results := results st |}.

(** The collector over the entries it receives, in order. *)
Definition collect (entries : list mdns.ServiceEntry) (st : Collector) : Collector :=
  fold_left (fun st entry => collect_entry entry st) entries st.

(** The fields that carry the marker: those the collector connects for. *)
Definition marker_fields (entry : mdns.ServiceEntry) : list string :=
  List.filter (fun field => HasPrefix field googleHomeModelInfo) (InfoFields entry).

(** The device the collector appends for [entry] when the client it
    allocated got identity [n]. *)
Definition device_of (entry : mdns.ServiceEntry) (n : nat) : CastDevice :=
  {| ServiceEntry := entry;
     client := {| id := n; host := AddrV4 entry; port := Port entry |} |}.

(** An entry qualifies when one of its fields begins with the marker. *)
Definition qualifies (entry : mdns.ServiceEntry) : Prop :=
  exists field, In field (InfoFields entry)
                /\ HasPrefix field googleHomeModelInfo = true.

(** Where the function stands. *)
Inductive MainPC : Type :=
| AtLookup                               (* inside mdns.Lookup(...) *)
| AtErrCheck (err : option error)        (* if err != nil { log.Printf(...) } *)
| AtClose                                (* close(entriesCh) *)
| AtReturn                               (* return results *)
| Returned (devices : list CastDevice).  (* the caller has the slice *)

(** Where the collector goroutine stands. *)
Inductive CollectorPC : Type :=
| AtRange                                (* for entry := range entriesCh *)
| AtFields (entry : mdns.ServiceEntry) (fields : list string)
                                         (* for _, field := range entry.InfoFields *)
| Exited.                                (* the range loop ended *)

(** The whole of one call: what [mdns.Lookup] still has to deliver and what
    it will answer, the channel (its buffer, oldest first, and whether it is
    closed), both program counters, and the shared variables. *)
Record Sys : Type := {
  lookup_pending : list mdns.ServiceEntry;
  lookup_err : option error;
  entriesCh : list mdns.ServiceEntry;
  entriesCh_closed : bool;
  main_pc : MainPC;
  collector_pc : CollectorPC;
  shared : Collector
}.

(** [make(chan *mdns.ServiceEntry, 4)]. *)
Definition entriesCh_cap : nat := 4.

Definition record (ev : Event) (st : Collector) : Collector :=
  {| env := {| world := world (env st); trace := trace (env st) ++ [ev];
               fresh := fresh (env st) |};
     results := results st |}.

(** One step of the function. [mdns.Lookup] is not part of the repository;
    as section 6 of the specification has it, the call streams the records it
    finds into the channel it was given and then returns: here an entry is
    sent when the buffer has room (the send blocks otherwise), and the call
    returns, with its answer, once nothing is pending. *)
Definition step_main (s : Sys) : option Sys :=
  match main_pc s with
  | AtLookup =>
      match lookup_pending s with
      | entry :: pending =>
          if (length (entriesCh s) <? entriesCh_cap)%nat then
            Some {| lookup_pending := pending; lookup_err := lookup_err s;
                    entriesCh := entriesCh s ++ [entry];
                    entriesCh_closed := entriesCh_closed s;
                    main_pc := AtLookup; collector_pc := collector_pc s;
                    shared := shared s |}
          else None
      | [] =>
          Some {| lookup_pending := []; lookup_err := lookup_err s;
                  entriesCh := entriesCh s;
                  entriesCh_closed := entriesCh_closed s;
                  main_pc := AtErrCheck (lookup_err s);
                  collector_pc := collector_pc s;
                  shared := record (EvLookup googleCastServiceName (lookup_err s))
                                   (shared s) |}
      end
  | AtErrCheck err =>
      Some {| lookup_pending := lookup_pending s; lookup_err := lookup_err s;
              entriesCh := entriesCh s; entriesCh_closed := entriesCh_closed s;
              main_pc := AtClose; collector_pc := collector_pc s;
              shared := match err with
                        | Some err => record (EvLog (LogLookupFailed err)) (shared s)
                        | None => shared s
                        end |}
  | AtClose =>
      if entriesCh_closed s then None (* close of a closed channel panics *)
      else
        Some {| lookup_pending := lookup_pending s; lookup_err := lookup_err s;
                entriesCh := entriesCh s; entriesCh_closed := true;
                main_pc := AtReturn; collector_pc := collector_pc s;
                shared := record EvCloseChannel (shared s) |}
  | AtReturn =>
      Some {| lookup_pending := lookup_pending s; lookup_err := lookup_err s;
              entriesCh := entriesCh s; entriesCh_closed := entriesCh_closed s;
              main_pc := Returned (results (shared s));
              collector_pc := collector_pc s; shared := shared s |}
  | Returned _ => None
  end.

Definition set_collector (pc : CollectorPC) (buffer : list mdns.ServiceEntry)
    (st : Collector) (s : Sys) : Sys :=
  {| lookup_pending := lookup_pending s; lookup_err := lookup_err s;
     entriesCh := buffer; entriesCh_closed := entriesCh_closed s;
     main_pc := main_pc s; collector_pc := pc; shared := st |}.

(** One step of the collector goroutine. A receive takes the oldest entry of
    the buffer; on an empty buffer it blocks until the channel is closed, and
    then the range loop ends. *)
Definition step_collector (s : Sys) : option Sys :=
  match collector_pc s with
  | AtRange =>
      match entriesCh s with
      | entry :: buffer =>
          Some (set_collector (AtFields entry (InfoFields entry)) buffer
                  (record (EvLog (LogServiceEntry entry)) (shared s)) s)
      | [] =>
          if entriesCh_closed s
          then Some (set_collector Exited [] (shared s) s)
          else None
      end
  | AtFields entry (field :: fields) =>
      Some (set_collector (AtFields entry fields) (entriesCh s)
              (collect_field entry field (shared s)) s)
  | AtFields entry [] =>
      Some (set_collector AtRange (entriesCh s) (shared s) s)
  | Exited => None
  end.

Inductive Thread : Type := Main | Goroutine.

Definition step (t : Thread) (s : Sys) : option Sys :=
  match t with
  | Main => step_main s
  | Goroutine => step_collector s
  end.

(** The run of a schedule: who moves, step after step. [None] when the thread
    chosen cannot move. *)
Fixpoint run (schedule : list Thread) (s : Sys) : option Sys :=
  match schedule with
  | [] => Some s
  | t :: schedule' =>
      match step t s with
      | Some s' => run schedule' s'
      | None => None
      end
  end.

(** The schedule in which the goroutine keeps up with the lookup: every
    entry is received and handled as soon as it is sent, and the function
    moves on (the lookup returns, the error is checked, the channel is
    closed, the slice is returned) only when all are handled. *)
Fixpoint orderly (entries : list mdns.ServiceEntry) : list Thread :=
  match entries with
  | [] => [Main; Main; Main; Main]
  | entry :: entries' =>
      (Main :: repeat Goroutine (2 + length (InfoFields entry))
       ++ orderly entries')%list
  end.

(** The function has not reached [close(entriesCh)] yet, or stands at it. *)
Definition before_close (pc : MainPC) : bool :=
  match pc with
  | AtLookup | AtErrCheck _ | AtClose => true
  | AtReturn | Returned _ => false
  end.

(** [LookupAndConnect] at its first line, in world [w], with a lookup that
    will deliver [pending] and answer [err]. *)
Definition LookupAndConnect (w : World) (pending : list mdns.ServiceEntry)
    (err : option error) : Sys :=
  {| lookup_pending := pending; lookup_err := err;
     entriesCh := []; entriesCh_closed := false;
     main_pc := AtLookup; collector_pc := AtRange;
     shared := {| env := {| world := w; trace := []; fresh := 0 |};
                  results := [] |} |}.

(** *** Notions the properties of the call are stated with *)

(** The collector never takes a device out of [results], nor an event out
    of the trace. *)
Definition grows (st st' : Collector) : Prop :=
  extends (results st) (results st')
  /\ extends (trace (env st)) (trace (env st')).

(** The connection attempt the collector makes for one field: none for a
    field without the marker, else one, with a new client for the address of
    the entry and with the answer of the collaborator. *)
Definition field_attempt (entry : mdns.ServiceEntry) (field : string)
    (st : Collector) : list (Client * option error) :=
  if HasPrefix field googleHomeModelInfo then
    let c := {| id := fresh (env st); host := AddrV4 entry; port := Port entry |} in
    [(c, fst (client_Connect c (world (env st))))]
  else [].

(** The attempts of the inner loop, field after field. *)
Fixpoint fields_attempts (entry : mdns.ServiceEntry) (fields : list string)
    (st : Collector) : list (Client * option error) :=
  match fields with
  | [] => []
  | field :: fields' =>
      (field_attempt entry field st
       ++ fields_attempts entry fields' (collect_field entry field st))%list
  end.

(** The connection attempts that handling [entry] from [st] adds to the
    trace: what [collect_entry] recorded beyond what was there. *)
Definition entry_attempts (entry : mdns.ServiceEntry) (st : Collector)
  : list (Client * option error) :=
  skipn (length (connect_attempts (trace (env st))))
        (connect_attempts (trace (env (collect_entry entry st)))).

(** The devices of the attempts that were accepted. *)
Definition accepted (entry : mdns.ServiceEntry)
    (attempts : list (Client * option error)) : list CastDevice :=
  flat_map (fun a => match snd a with
                     | None => [{| ServiceEntry := entry; client := fst a |}]
                     | Some _ => []
                     end) attempts.

(** A device the collector appended: its entry qualifies, its client was
    made for the address of that entry, and the connection of that client
    was accepted in some world. *)
Definition well_connected (d : CastDevice) : Prop :=
  qualifies (ServiceEntry d)
  /\ host (client d) = AddrV4 (ServiceEntry d)
  /\ port (client d) = Port (ServiceEntry d)
  /\ exists w, fst (client_Connect (client d) w) = None.

(** What holds of every state a call can be in. *)
Record sys_inv (s : Sys) : Prop := {
  inv_results : forall d, In d (results (shared s)) -> well_connected d;
  inv_returned : forall r, main_pc s = Returned r -> extends r (results (shared s));
  inv_fields : forall e fs, collector_pc s = AtFields e fs ->
                            forall f, In f fs -> In f (InfoFields e);
  inv_closed : entriesCh_closed s = negb (before_close (main_pc s));
  inv_close_count : close_count (trace (env (shared s)))
                    = if before_close (main_pc s) then 0 else 1;
  inv_bounded : length (entriesCh s) <= entriesCh_cap
}.

End Device.

Arguments Env World : clear implicits.
Arguments M World A : clear implicits.
Arguments Collector World : clear implicits.
Arguments Sys World : clear implicits.

End homecast.

(** ** A concrete household, for examples *)

Module Demo.
Import homecast.

(** A world without memory: the receiver at 10.0.0.6 refuses every
    connection, the one at 10.0.0.7 has no media subsystem, every other call
    succeeds. *)
#[global] Instance demo_cast : Cast unit := {
  client_Connect c w :=
    (if String.eqb (host c) "10.0.0.6"
     then Some (errors_New "connection refused") else None, w);
  client_Close c w := w;
  client_Media c w :=
    (if String.eqb (host c) "10.0.0.7"
     then Some (errors_New "media unavailable") else None, w);
  media_LoadMedia c item currentTime autoplay customData w := (None, w);
  media_QueueLoad c items startIndex customData w := (None, w);
  media_QueueInsert c items customData w := (None, w)
}.

Definition kitchen : mdns.ServiceEntry :=
  {| Name := "Kitchen"; AddrV4 := "10.0.0.5"; Port := 8009;
     InfoFields := ["id=5f1c"; "md=Google Home"; "fn=Kitchen"] |}.

Definition cellar : mdns.ServiceEntry :=
  {| Name := "Cellar"; AddrV4 := "10.0.0.6"; Port := 8009;
     InfoFields := ["md=Google Home Mini"] |}.

Definition printer : mdns.ServiceEntry :=
  {| Name := "Printer"; AddrV4 := "10.0.0.9"; Port := 631;
     InfoFields := ["ty=Laser"; "note=md=Google Home"] |}.

Definition attic : mdns.ServiceEntry :=
  {| Name := "Attic"; AddrV4 := "10.0.0.7"; Port := 8009;
     InfoFields := ["md=Google Home"] |}.

Definition hall : mdns.ServiceEntry :=
  {| Name := "Hall"; AddrV4 := "10.0.0.8"; Port := 8009;
     InfoFields := ["md=Google Home"; "md=Google Home Max"] |}.

Definition start : Env unit := {| world := tt; trace := []; fresh := 0 |}.

(** The orderly pass over the printer and the kitchen. *)
Definition orderly_pass : list Thread := orderly [printer; kitchen].

(** A pass in which the function is scheduled alone: the entry is sent, the
    lookup returns, the error is checked, the channel is closed and the
    function returns, before the goroutine has made a step. *)
Definition hasty_pass : list Thread := [Main; Main; Main; Main; Main].

(** An evening with four advertisements, and a pass over them in which the
    goroutine falls behind: the printer and the cellar are sent, the
    goroutine handles the printer, the hall is sent, the goroutine handles
    the cellar, the kitchen is sent, the goroutine handles the hall, and the
    function goes from the return of the lookup to its own return while the
    kitchen is still in the channel. *)
Definition evening : list mdns.ServiceEntry := [printer; cellar; hall; kitchen].
Definition busy_pass : list Thread :=
  [Main; Main] ++ repeat Goroutine 4 ++ [Main] ++ repeat Goroutine 3
  ++ [Main] ++ repeat Goroutine 4 ++ [Main; Main; Main; Main].

(** A pass that delivers one entry, lets the goroutine handle it, and stops
    when the lookup has returned. *)
Definition pass_until_lookup_returns : list Thread :=
  [Main] ++ repeat Goroutine 5 ++ [Main].

Definition device (e : mdns.ServiceEntry) (n : nat) : CastDevice :=
  {| ServiceEntry := e;
     client := {| id := n; host := AddrV4 e; port := Port e |} |}.

End Demo.

(** * Properties *)

(** ** Strings *)

Section StringFacts.
Import strings.

Lemma append_cons (c : ascii) (s t : string) :
  String c s ++ t = String c (s ++ t).
Proof. reflexivity. Qed.

Lemma append_nil_l (t : string) : "" ++ t = t.
Proof. reflexivity. Qed.

Lemma append_nil_r (s : string) : s ++ "" = s.
Proof.
  induction s as [|c s IH]; [reflexivity|].
  rewrite append_cons. f_equal. exact IH.
Qed.

Lemma append_assoc (a b c : string) : (a ++ b) ++ c = a ++ (b ++ c).
Proof.
  induction a as [|x a IH]; [reflexivity|].
  rewrite !append_cons. f_equal. exact IH.
Qed.

Lemma length_append (a b : string) :
  String.length (a ++ b) = String.length a + String.length b.
Proof.
  induction a as [|c a IH]; [reflexivity|].
  rewrite append_cons. simpl. f_equal. exact IH.
Qed.

Lemma ContainsByte_app (a b : string) (c : ascii) :
  ContainsByte (a ++ b) c = ContainsByte a c || ContainsByte b c.
Proof.
  induction a as [|x a IH]; [reflexivity|].
  rewrite append_cons. simpl. rewrite IH. now rewrite orb_assoc.
Qed.

(** Without the separator in it, a string is cut into itself and nothing. *)
Lemma Cut_absent (s : string) (sep : ascii) :
  ContainsByte s sep = false -> Cut s sep = (s, "", false).
Proof.
  induction s as [|d s IH]; simpl; [reflexivity|].
  intros H. apply orb_false_iff in H as [Hd Hs].
  rewrite Hd, (IH Hs). reflexivity.
Qed.

(** The cut falls at the first separator: the one that follows a text free
    of it. *)
Lemma Cut_first (a b : string) (sep : ascii) :
  ContainsByte a sep = false ->
  Cut (a ++ String sep b) sep = (a, b, true).
Proof.
  induction a as [|d a IH]; intros H.
  - rewrite append_nil_l. simpl. now rewrite Ascii.eqb_refl.
  - rewrite append_cons. simpl in *.
    apply orb_false_iff in H as [Hd Ha]. rewrite Hd, (IH Ha). reflexivity.
Qed.

Lemma substring_all (s : string) : substring 0 (String.length s) s = s.
Proof. induction s as [|c s IH]; [reflexivity | simpl; f_equal; exact IH]. Qed.

Lemma substring_skip (a b : string) (i n : nat) :
  substring (String.length a + i) n (a ++ b) = substring i n b.
Proof.
  induction a as [|c a IH]; [reflexivity|].
  rewrite append_cons. simpl. exact IH.
Qed.

(** A string that ends in [t] has suffix [u] exactly when [t] has, for [u] no
    longer than [t]. *)
Lemma HasSuffix_append (a t u : string) :
  String.length u <= String.length t ->
  HasSuffix (a ++ t) u = HasSuffix t u.
Proof.
  intros Hlen. unfold HasSuffix, from.
  rewrite length_append.
  replace (String.length u <=? String.length a + String.length t)%nat
    with true by (symmetry; apply Nat.leb_le; lia).
  replace (String.length u <=? String.length t)%nat
    with true by (symmetry; apply Nat.leb_le; lia).
  simpl. f_equal.
  replace (String.length a + String.length t - String.length u)
    with (String.length a + (String.length t - String.length u)) by lia.
  set (k := String.length t - String.length u).
  replace (String.length a + String.length t - (String.length a + k))
    with (String.length t - k) by lia.
  apply substring_skip.
Qed.

End StringFacts.

(** ** [net/url]: escaping a query component and reading it back *)

Section EscapeFacts.
Import strings url.

Lemma all_bytes_app (p : ascii -> bool) (a b : string) :
  all_bytes p (a ++ b) = all_bytes p a && all_bytes p b.
Proof.
  induction a as [|c a IH]; [reflexivity|].
  rewrite append_cons. simpl. rewrite IH. now rewrite andb_assoc.
Qed.

Lemma all_bytes_weaken (p q : ascii -> bool) (s : string) :
  (forall c, p c = true -> q c = true) ->
  all_bytes p s = true -> all_bytes q s = true.
Proof.
  intros Hpq. induction s as [|c s IH]; simpl; [reflexivity|].
  intros H. apply andb_true_iff in H as [Hc Hs].
  rewrite (Hpq c Hc), (IH Hs). reflexivity.
Qed.

Lemma escape_write_cons (c : ascii) (s : string) :
  escape_write (String c s) encodeQueryComponent
  = escape_byte c ++ escape_write s encodeQueryComponent.
Proof.
  unfold escape_byte. simpl.
  destruct (Ascii.eqb c " " && true); [reflexivity|].
  destruct (shouldEscape c encodeQueryComponent); reflexivity.
Qed.

Lemma escape_byte_query_bytes (c : ascii) :
  all_bytes query_byte (escape_byte c) = true.
Proof. each_byte c; vm_compute; reflexivity. Qed.

(** The writing pass puts out query bytes only. *)
Lemma escape_write_query_bytes (s : string) :
  all_bytes query_byte (escape_write s encodeQueryComponent) = true.
Proof.
  induction s as [|c s IH]; [reflexivity|].
  rewrite escape_write_cons, all_bytes_app, escape_byte_query_bytes, IH.
  reflexivity.
Qed.

(** The accumulators of the counting pass only add up. *)
Lemma escape_count_acc (s : string) (mode : encoding) (a b : nat) :
  escape_count s mode a b
  = (a + fst (escape_count s mode 0 0), b + snd (escape_count s mode 0 0)).
Proof.
  revert a b. induction s as [|c s IH]; intros a b; simpl.
  - f_equal; lia.
  - destruct (shouldEscape c mode);
      [destruct (Ascii.eqb c " " && encoding_eqb mode encodeQueryComponent)|];
      rewrite (IH _ _); try rewrite (IH 1 0); try rewrite (IH 0 1);
      simpl; f_equal; lia.
Qed.

(** How one more byte moves the two counts. *)
Lemma counts_cons (c : ascii) (s : string) :
  spaceCount (String c s) = (if Ascii.eqb c " " then 1 else 0) + spaceCount s
  /\ hexCount (String c s)
     = (if shouldEscape c encodeQueryComponent && negb (Ascii.eqb c " ")
        then 1 else 0) + hexCount s.
Proof.
  unfold spaceCount, hexCount. simpl.
  destruct (Ascii.eqb c " ") eqn:Hsp.
  - apply Ascii.eqb_eq in Hsp. subst c. simpl.
    rewrite escape_count_acc. simpl. split; reflexivity.
  - simpl. destruct (shouldEscape c encodeQueryComponent); simpl.
    + rewrite escape_count_acc. simpl. split; reflexivity.
    + split; reflexivity.
Qed.

Lemma escape_byte_plain (c : ascii) :
  Ascii.eqb c " " = false -> shouldEscape c encodeQueryComponent = false ->
  escape_byte c = String c "".
Proof. intros H1 H2. unfold escape_byte. simpl. now rewrite H1, H2. Qed.

Lemma escape_byte_space : escape_byte " " = "+".
Proof. reflexivity. Qed.

(** With nothing to escape the writing pass copies its input. *)
Lemma escape_write_copy (s : string) :
  spaceCount s = 0 -> hexCount s = 0 ->
  escape_write s encodeQueryComponent = s.
Proof.
  induction s as [|c s IH]; [reflexivity|].
  destruct (counts_cons c s) as [-> ->]. intros Hs Hh.
  destruct (Ascii.eqb c " ") eqn:Hsp; [discriminate|].
  destruct (shouldEscape c encodeQueryComponent) eqn:Hesc; [discriminate|].
  rewrite escape_write_cons, escape_byte_plain by assumption.
  rewrite append_cons, append_nil_l. f_equal. apply IH; assumption.
Qed.

(** With only spaces to escape it does what the space branch does. *)
Lemma escape_write_spaces (s : string) :
  hexCount s = 0 -> escape_write s encodeQueryComponent = escape_spaces s.
Proof.
  induction s as [|c s IH]; [reflexivity|].
  destruct (counts_cons c s) as [_ ->]. intros Hh.
  rewrite escape_write_cons. simpl.
  destruct (Ascii.eqb c " ") eqn:Hsp.
  - apply Ascii.eqb_eq in Hsp. subst c. rewrite escape_byte_space.
    rewrite append_cons, append_nil_l. f_equal. apply IH. simpl in Hh. exact Hh.
  - destruct (shouldEscape c encodeQueryComponent) eqn:Hesc; [discriminate|].
    rewrite escape_byte_plain by assumption.
    rewrite append_cons, append_nil_l. f_equal. apply IH. exact Hh.
Qed.

(** The three branches of [escape] agree with its writing pass. *)
Lemma QueryEscape_write (s : string) :
  QueryEscape s = escape_write s encodeQueryComponent.
Proof.
  unfold QueryEscape, escape.
  pose proof (escape_write_copy s) as Hcopy.
  pose proof (escape_write_spaces s) as Hspaces.
  unfold spaceCount, hexCount in *.
  destruct (escape_count s encodeQueryComponent 0 0) as [sp hx]; simpl in *.
  destruct hx as [|hx]; simpl.
  - destruct sp as [|sp]; simpl.
    + symmetry. apply Hcopy; reflexivity.
    + symmetry. apply Hspaces. reflexivity.
  - rewrite andb_false_r. reflexivity.
Qed.

Lemma QueryEscape_query_bytes (s : string) :
  all_bytes query_byte (QueryEscape s) = true.
Proof. rewrite QueryEscape_write. apply escape_write_query_bytes. Qed.

(** The checking pass of [unescape] walks over what one escaped byte became
    and counts it. *)
Lemma unescape_check_escape_byte (c : ascii) (t : string) (n : nat) (hasPlus : bool) :
  unescape_check (escape_byte c ++ t) encodeQueryComponent n hasPlus
  = unescape_check t encodeQueryComponent
      (if shouldEscape c encodeQueryComponent && negb (Ascii.eqb c " ")
       then S n else n)
      (if Ascii.eqb c " " then true else hasPlus).
Proof. each_byte c; reflexivity. Qed.

(** The writing pass of [unescape] gives the byte back. *)
Lemma unescape_write_escape_byte (c : ascii) (t : string) :
  unescape_write (escape_byte c ++ t) encodeQueryComponent
  = option_map (String c) (unescape_write t encodeQueryComponent).
Proof. each_byte c; reflexivity. Qed.

Lemma unescape_check_escaped (s : string) (n : nat) (hasPlus : bool) :
  unescape_check (escape_write s encodeQueryComponent) encodeQueryComponent n hasPlus
  = Ok (n + hexCount s, hasPlus || (0 <? spaceCount s)%nat).
Proof.
  revert n hasPlus. induction s as [|c s IH]; intros n hasPlus.
  - simpl. rewrite orb_false_r. f_equal. f_equal. unfold hexCount. simpl. lia.
  - rewrite escape_write_cons, unescape_check_escape_byte, IH.
    destruct (counts_cons c s) as [-> ->].
    destruct (Ascii.eqb c " "); simpl.
    + rewrite andb_false_r, orb_true_r. reflexivity.
    + rewrite andb_true_r.
      destruct (shouldEscape c encodeQueryComponent); simpl;
        f_equal; f_equal; lia.
Qed.

Lemma unescape_write_escaped (s : string) :
  unescape_write (escape_write s encodeQueryComponent) encodeQueryComponent
  = Some s.
Proof.
  induction s as [|c s IH]; [reflexivity|].
  rewrite escape_write_cons, unescape_write_escape_byte, IH. reflexivity.
Qed.

(** Unescaping an escaped query component gives the component back. *)
Lemma QueryUnescape_QueryEscape (s : string) :
  QueryUnescape (QueryEscape s) = Ok s.
Proof.
  unfold QueryUnescape, unescape.
  rewrite QueryEscape_write, unescape_check_escaped. simpl.
  destruct (hexCount s) as [|h] eqn:Hh; simpl.
  - destruct (spaceCount s) as [|k] eqn:Hs; simpl.
    + f_equal. apply escape_write_copy; assumption.
    + now rewrite unescape_write_escaped.
  - now rewrite unescape_write_escaped.
Qed.

End EscapeFacts.

(** ** [net/url]: parsing the address [tts] builds *)

Section ParseFacts.
Import strings url homecast.

Lemma stringContainsCTLByte_app (a b : string) :
  stringContainsCTLByte (a ++ b)
  = stringContainsCTLByte a || stringContainsCTLByte b.
Proof.
  induction a as [|c a IH]; [reflexivity|].
  rewrite append_cons. simpl. rewrite IH. now rewrite !orb_assoc.
Qed.

(** A string whose last byte is [c] has [c] in it. *)
Lemma HasSuffix_byte_absent (s : string) (c : ascii) :
  ContainsByte s c = false -> HasSuffix s (String c "") = false.
Proof.
  unfold HasSuffix, from. simpl String.length.
  induction s as [|d s IH]; [reflexivity|].
  simpl ContainsByte. intros H. apply orb_false_iff in H as [Hd Hs].
  specialize (IH Hs). simpl String.length.
  replace (1 <=? S (String.length s))%nat with true by reflexivity.
  rewrite andb_true_l.
  destruct s as [|e s].
  - simpl. now rewrite Hd.
  - simpl String.length in *.
    replace (1 <=? S (String.length s))%nat with true in IH by reflexivity.
    rewrite andb_true_l in IH.
    replace (S (S (String.length s)) - 1) with (S (S (String.length s) - 1)) by lia.
    replace (S (S (String.length s)) - S (S (String.length s) - 1))
      with (S (String.length s) - (S (String.length s) - 1)) by lia.
    exact IH.
Qed.

Lemma template_byte_plain (c : ascii) :
  template_byte c = true ->
  Ascii.eqb c "#" = false /\ Ascii.eqb c "?" = false
  /\ ((byte c <? byte " ")%N || (byte c =? 127)%N) = false.
Proof. each_byte c; vm_compute; intros H; try discriminate H; repeat split. Qed.

Lemma template_bytes_plain (s : string) :
  all_bytes template_byte s = true ->
  ContainsByte s "#" = false /\ ContainsByte s "?" = false
  /\ stringContainsCTLByte s = false.
Proof.
  induction s as [|c s IH];
    cbn [ContainsByte stringContainsCTLByte all_bytes]; [repeat split|].
  intros H. apply andb_true_iff in H as [Hc Hs].
  destruct (template_byte_plain c Hc) as (H1 & H2 & H3).
  destruct (IH Hs) as (I1 & I2 & I3).
  rewrite H1, H2, H3, I1, I2, I3. repeat split.
Qed.

(** What [Parse] makes of the fixed endpoint followed by a query. *)
Lemma Parse_endpoint (q : string) :
  q <> "" -> all_bytes template_byte q = true ->
  Parse ("https://translate.google.com/translate_tts?" ++ q)
  = Ok {| Scheme := "https"; Opaque := ""; User := None;
          Host := "translate.google.com"; Path := "/translate_tts";
          RawPath := ""; OmitHost := false; ForceQuery := false;
          RawQuery := q; Fragment := ""; RawFragment := "" |}.
Proof.
  intros Hq Hall.
  destruct (template_bytes_plain q Hall) as (Hhash & Hquest & Hctl).
  unfold Parse.
  rewrite Cut_absent
    by (rewrite ContainsByte_app, Hhash; reflexivity).
  unfold parse.
  rewrite stringContainsCTLByte_app, Hctl.
  replace (stringContainsCTLByte "https://translate.google.com/translate_tts?")
    with false by reflexivity.
  replace ("https://translate.google.com/translate_tts?" ++ q =? "")%string
    with false by reflexivity.
  replace ("https://translate.google.com/translate_tts?" ++ q =? "*")%string
    with false by reflexivity.
  replace (getScheme ("https://translate.google.com/translate_tts?" ++ q))
    with (Ok ("https", "//translate.google.com/translate_tts?" ++ q))
    by reflexivity.
  cbv beta iota zeta. cbn [orb andb].
  rewrite HasSuffix_append, (HasSuffix_byte_absent q "?" Hquest)
    by (destruct q; [congruence | simpl; lia]).
  cbn [andb].
  change ("//translate.google.com/translate_tts?" ++ q)
    with ("//translate.google.com/translate_tts" ++ String "?" q).
  rewrite Cut_first by reflexivity.
  reflexivity.
Qed.

(** The address [tts] hands to [Parse]: the template with both operands
    escaped. *)
Lemma tts_Sprintf (a b : string) :
  fmt.Sprintf
    "https://translate.google.com/translate_tts?client=tw-ob&ie=UTF-8&q=%s&tl=%s"
    [a; b]
  = "https://translate.google.com/translate_tts?"
    ++ ("client=tw-ob&ie=UTF-8&q=" ++ a ++ "&tl=" ++ b).
Proof.
  unfold fmt.Sprintf. simpl. rewrite (append_nil_r b). reflexivity.
Qed.

Lemma all_bytes_absent (p : ascii -> bool) (s : string) (c : ascii) :
  p c = false -> all_bytes p s = true -> ContainsByte s c = false.
Proof.
  intros Hc. induction s as [|d s IH]; simpl; [reflexivity|].
  intros H. apply andb_true_iff in H as [Hd Hs].
  rewrite (IH Hs), orb_false_r.
  destruct (Ascii.eqb_spec d c) as [->|]; [congruence | reflexivity].
Qed.

Lemma query_byte_template (c : ascii) :
  query_byte c = true -> template_byte c = true.
Proof. unfold template_byte. now intros ->. Qed.

(** The query [tts] writes is made of template bytes. *)
Lemma tts_query_bytes (a b : string) :
  all_bytes query_byte a = true -> all_bytes query_byte b = true ->
  all_bytes template_byte ("client=tw-ob&ie=UTF-8&q=" ++ a ++ "&tl=" ++ b) = true.
Proof.
  intros Ha Hb. rewrite !all_bytes_app.
  rewrite (all_bytes_weaken _ _ a query_byte_template Ha).
  rewrite (all_bytes_weaken _ _ b query_byte_template Hb).
  reflexivity.
Qed.

(** [tts] spelled out: the parsed endpoint, with the escaped operands in the
    raw query. *)
Lemma tts_Ok (text lang : string) :
  tts text lang = Ok (tts_url (QueryEscape text) (QueryEscape lang)).
Proof.
  unfold tts, tts_url. rewrite tts_Sprintf.
  apply Parse_endpoint.
  - discriminate.
  - apply tts_query_bytes; apply QueryEscape_query_bytes.
Qed.

Lemma parseQuery_segment (m : Values) (err : option error) (seg rest : string) :
  ContainsByte seg "&" = false ->
  parseQuery m err (seg ++ String "&" rest)
  = parseQuery (fst (parseQuery_body m err seg))
               (snd (parseQuery_body m err seg)) rest.
Proof.
  intros Hseg.
  assert (Hcut : Cut (seg ++ String "&" rest) "&" = (seg, rest, true))
    by now apply Cut_first.
  destruct seg as [|c seg].
  - rewrite append_nil_l in *. rewrite parseQuery_equation_2, Hcut. reflexivity.
  - rewrite append_cons in *. rewrite parseQuery_equation_2, Hcut. reflexivity.
Qed.

Lemma parseQuery_last (m : Values) (err : option error) (seg : string) :
  seg <> "" -> ContainsByte seg "&" = false ->
  parseQuery m err seg = parseQuery_body m err seg.
Proof.
  intros Hne Hseg. destruct seg as [|c seg]; [congruence|].
  rewrite parseQuery_equation_2, (Cut_absent _ _ Hseg). simpl.
  rewrite parseQuery_equation_1. now destruct (parseQuery_body _ _ _).
Qed.

(** One [key=value] segment whose two sides unescape adds the value under
    the key. *)
Lemma parseQuery_body_pair (m : Values) (err : option error)
    (k v k' v' : string) :
  k <> "" ->
  ContainsByte k ";" = false -> ContainsByte v ";" = false ->
  ContainsByte k "=" = false ->
  QueryUnescape k = Ok k' -> QueryUnescape v = Ok v' ->
  parseQuery_body m err (k ++ String "=" v)
  = (<[k' := (default [] (m !! k') ++ [v'])%list]> m, err).
Proof.
  intros Hne Hk Hv Heq Huk Huv. unfold parseQuery_body.
  rewrite ContainsByte_app, Hk. cbn [ContainsByte orb].
  replace (Ascii.eqb "=" ";") with false by reflexivity. rewrite Hv.
  cbn [orb].
  replace (k ++ String "=" v =? "")%string with false
    by (destruct k; [congruence | reflexivity]).
  rewrite Cut_first by assumption. now rewrite Huk, Huv.
Qed.

(** The values of the query [tts] writes: the escaped operands come back
    under [q] and [tl]. *)
Lemma tts_query_values (text lang : string) :
  fst (ParseQuery ("client=tw-ob&ie=UTF-8&q=" ++ QueryEscape text
                   ++ "&tl=" ++ QueryEscape lang))
  = <["tl" := [lang]]> (<["q" := [text]]>
      (<["ie" := ["UTF-8"]]> (<["client" := ["tw-ob"]]> ∅))).
Proof.
  pose proof (QueryEscape_query_bytes text) as Ht.
  pose proof (QueryEscape_query_bytes lang) as Hl.
  unfold ParseQuery.
  change ("client=tw-ob&ie=UTF-8&q=" ++ QueryEscape text ++ "&tl=" ++ QueryEscape lang)
    with ("client=tw-ob" ++ String "&" ("ie=UTF-8" ++ String "&"
            (("q" ++ String "=" (QueryEscape text)) ++ String "&"
               ("tl" ++ String "=" (QueryEscape lang))))).
  rewrite parseQuery_segment by reflexivity.
  rewrite (parseQuery_body_pair _ _ "client" "tw-ob" "client" "tw-ob")
    by (reflexivity || discriminate).
  cbn [fst snd].
  rewrite parseQuery_segment by reflexivity.
  rewrite (parseQuery_body_pair _ _ "ie" "UTF-8" "ie" "UTF-8")
    by (reflexivity || discriminate).
  cbn [fst snd].
  rewrite parseQuery_segment
    by (rewrite ContainsByte_app; cbn [ContainsByte orb];
        now rewrite (all_bytes_absent query_byte _ "&" eq_refl Ht)).
  rewrite (parseQuery_body_pair _ _ "q" (QueryEscape text) "q" text);
    [| discriminate | reflexivity
     | exact (all_bytes_absent query_byte _ ";" eq_refl Ht)
     | reflexivity | reflexivity | apply QueryUnescape_QueryEscape].
  cbn [fst snd].
  rewrite parseQuery_last;
    [| discriminate
     | rewrite ContainsByte_app; cbn [ContainsByte orb];
       now rewrite (all_bytes_absent query_byte _ "&" eq_refl Hl)].
  rewrite (parseQuery_body_pair _ _ "tl" (QueryEscape lang) "tl" lang);
    [| discriminate | reflexivity
     | exact (all_bytes_absent query_byte _ ";" eq_refl Hl)
     | reflexivity | reflexivity | apply QueryUnescape_QueryEscape].
  cbn [fst].
  rewrite lookup_empty.
  rewrite (lookup_insert_ne _ "client" "ie") by discriminate.
  rewrite lookup_empty.
  rewrite (lookup_insert_ne _ "ie" "q"), (lookup_insert_ne _ "client" "q")
    by discriminate.
  rewrite lookup_empty.
  rewrite (lookup_insert_ne _ "q" "tl"), (lookup_insert_ne _ "ie" "tl"),
    (lookup_insert_ne _ "client" "tl") by discriminate.
  rewrite lookup_empty.
  reflexivity.
Qed.

(** C8. The resolver is a function of its two inputs alone: for every text
    and language it yields the one URL [tts_url] spells from their escaped
    forms, and in that URL the values of the query parameters [q] and [tl],
    as [URL.Query] decodes them, are the text and the language that went in. *)
Theorem tts_deterministic_and_decodable (text lang : string) :
  tts text lang = Ok (tts_url (QueryEscape text) (QueryEscape lang))
  /\ Get (Query (tts_url (QueryEscape text) (QueryEscape lang))) "q" = text
  /\ Get (Query (tts_url (QueryEscape text) (QueryEscape lang))) "tl" = lang.
Proof.
  split; [apply tts_Ok|].
  unfold Query, Get. cbn [RawQuery tts_url].
  rewrite tts_query_values.
  split.
  - rewrite (lookup_insert_ne _ "tl" "q") by discriminate.
    now rewrite lookup_insert_eq.
  - now rewrite lookup_insert_eq.
Qed.

(** C9. The outcome of the resolver is the outcome of [url.Parse] on the
    template filled with the two escaped inputs, and on every pair of inputs,
    empty strings included, that outcome is a URL: the error branch is never
    taken. *)
Theorem tts_never_fails (text lang : string) :
  tts text lang = Parse (tts_address (QueryEscape text) (QueryEscape lang))
  /\ is_Ok (tts text lang) = true.
Proof.
  split.
  - unfold tts, tts_address. now rewrite tts_Sprintf.
  - now rewrite tts_Ok.
Qed.

End ParseFacts.

(** ** Playback: [Play], [Speak], [QueueLoad] *)

Section DeviceFacts.
Import strings url homecast.
Context {World : Type} `{Cast World}.

Lemma lookup_map {A B : Type} (f : A -> B) (l : list A) (i : nat) :
  map f l !! i = option_map f (l !! i).
Proof.
  revert i. induction l as [|x l IH]; intros [|i]; simpl; try reflexivity.
  apply IH.
Qed.

(** The loop over [data] from index [i] leaves the first [i] items alone
    and writes the item of each datum after them, in order. *)
Lemma fill_items_map (data : list MediaData) (i : nat) (items : list MediaItem) :
  length items = i + length data ->
  fill_items i data items = (take i items ++ map queue_item data)%list.
Proof.
  revert i items. induction data as [|d data IH]; intros i items Hlen; simpl in *.
  - rewrite app_nil_r. symmetry. apply take_ge. lia.
  - rewrite IH by (rewrite length_insert; lia).
    assert (Hi : i < length items) by lia.
    rewrite (take_S_r _ i (queue_item d))
      by (apply list_lookup_insert_eq; exact Hi).
    rewrite take_insert_ge by lia.
    now rewrite <- app_assoc.
Qed.

(** [make] and the loop together build the item of each datum, in order. *)
Lemma build_items_map (data : list MediaData) :
  build_items data = map queue_item data.
Proof.
  unfold build_items.
  rewrite fill_items_map by (rewrite length_replicate; lia).
  reflexivity.
Qed.

(** C3, as amended. For every URI: when the media-control handle is
    obtained, [Play] logs and issues exactly one load-media command, whose
    item has the URI rendered as a string for content id, content type
    audio/mp3, stream type BUFFERED and its metadata left at the zero value,
    with start position 0 and autoplay on, and returns what that command
    answered; when the handle is not obtained, [Play] returns that error and
    issues no command. *)
Theorem Play_issues_load_media (g : CastDevice) (u : url.URL) (st : Env World) :
  let item :=
    {| ContentId := String_ u; StreamType := "BUFFERED";
       ContentType := "audio/mp3"; MetaData := zero_MediaMetaData |} in
  let '(handle_err, w1) := client_Media (client g) (world st) in
  match handle_err with
  | Some e =>
      Play g u st
      = (Some e, {| world := w1;
                    trace := trace st ++ [EvMedia (client g) (Some e)];
                    fresh := fresh st |})
  | None =>
      let '(err, w2) := media_LoadMedia (client g) item 0 true None w1 in
      Play g u st
      = (err, {| world := w2;
                 trace := trace st
                          ++ [EvMedia (client g) None;
                              EvLog (LogLoadMedia (String_ u));
                              EvLoadMedia (client g) item 0 true None err];
                 fresh := fresh st |})
      /\ load_media_commands (trace (snd (Play g u st)))
         = (load_media_commands (trace st) ++ [(client g, item, 0%Z, true)])%list
  end.
Proof.
  cbv zeta. unfold Play, bind, call, log, ret.
  destruct (client_Media (client g) (world st)) as [[e|] w1]; cbn.
  - reflexivity.
  - destruct (media_LoadMedia _ _ _ _ _ w1) as [err w2]; cbn.
    rewrite <- !app_assoc. cbn. split; [reflexivity|].
    unfold load_media_commands. rewrite flat_map_app. reflexivity.
Qed.

(** C2, as amended. For every sequence of [MediaData]: the items built have
    the length and the order of the input, the i-th with the i-th URL
    rendered as a string for content id and metadata of kind 3 titled as the
    i-th input; when the media-control handle is obtained, [QueueLoad] issues
    one queue-load command with these items and start index 0; when it is
    not, [QueueLoad] returns that error and issues no command. *)
Theorem QueueLoad_builds_items (g : CastDevice) (data : list MediaData)
    (st : Env World) :
  length (build_items data) = length data
  /\ (forall i d, data !! i = Some d ->
        build_items data !! i
        = Some {| ContentId := String_ (URL d); StreamType := "BUFFERED";
                  ContentType := "audio/mp3";
                  MetaData := {| MetaDataType := 3;
                                 controllers.Title := Title d |} |})
  /\ let '(handle_err, w1) := client_Media (client g) (world st) in
     match handle_err with
     | Some e =>
         QueueLoad g data st
         = (Some e, {| world := w1;
                       trace := trace st ++ [EvMedia (client g) (Some e)];
                       fresh := fresh st |})
     | None =>
         let '(err, w2) :=
           media_QueueLoad (client g) (build_items data) 0 None w1 in
         QueueLoad g data st
         = (err, {| world := w2;
                    trace := trace st
                             ++ [EvMedia (client g) None;
                                 EvLog LogQueueLoad;
                                 EvQueueLoad (client g) (build_items data) 0
                                   None err];
                    fresh := fresh st |})
         /\ queue_load_commands (trace (snd (QueueLoad g data st)))
            = (queue_load_commands (trace st)
               ++ [(client g, build_items data, 0%Z)])%list
     end.
Proof.
  split; [|split].
  - rewrite build_items_map. apply length_map.
  - intros i d Hd. rewrite build_items_map, lookup_map, Hd. reflexivity.
  - unfold QueueLoad, bind, call, log, ret.
    destruct (client_Media (client g) (world st)) as [[e|] w1]; cbn.
    + reflexivity.
    + destruct (media_QueueLoad _ _ _ _ w1) as [err w2]; cbn.
      rewrite <- !app_assoc. cbn. split; [reflexivity|].
      unfold queue_load_commands. rewrite flat_map_app. reflexivity.
Qed.


End DeviceFacts.

(** The claims C3 and C2 as the specification words them, with no condition
    on the media-control handle, fail where the handle is not obtained. *)

(** C3, counterexample. On the receiver at 10.0.0.7, whose media subsystem
    is unavailable, [Play] returns the handle error and the trace holds no
    load-media command at all, not exactly one. *)
Lemma Play_without_media_handle :
  homecast.Play (Demo.device Demo.attic 0) (homecast.tts_url "hello" "en")
    Demo.start
  = (Some (errors_New "media unavailable"),
     {| homecast.world := tt;
        homecast.trace :=
          [EvMedia (homecast.client (Demo.device Demo.attic 0))
             (Some (errors_New "media unavailable"))];
        homecast.fresh := 0 |})
  /\ length (load_media_commands
               (homecast.trace
                  (snd (homecast.Play (Demo.device Demo.attic 0)
                          (homecast.tts_url "hello" "en") Demo.start)))) <> 1.
Proof. split; [reflexivity | vm_compute; discriminate]. Qed.

(** C2, counterexample. On the same receiver [QueueLoad] of one item
    returns the handle error and issues no queue-load command. *)
Lemma QueueLoad_without_media_handle :
  homecast.QueueLoad (Demo.device Demo.attic 0)
    [{| homecast.URL := homecast.tts_url "hello" "en";
        homecast.Title := "T1" |}]
    Demo.start
  = (Some (errors_New "media unavailable"),
     {| homecast.world := tt;
        homecast.trace :=
          [EvMedia (homecast.client (Demo.device Demo.attic 0))
             (Some (errors_New "media unavailable"))];
        homecast.fresh := 0 |})
  /\ length (queue_load_commands
               (homecast.trace
                  (snd (homecast.QueueLoad (Demo.device Demo.attic 0)
                          [{| homecast.URL := homecast.tts_url "hello" "en";
                              homecast.Title := "T1" |}]
                          Demo.start)))) <> 1.
Proof. split; [reflexivity | vm_compute; discriminate]. Qed.

(** ** Discovery: the collector *)

Section CollectorFacts.
Import strings url homecast.
Context {World : Type} `{Cast World}.

(** A field without the marker is passed over. *)
Lemma collect_field_skip (e : mdns.ServiceEntry) (f : string) (st : Collector World) :
  HasPrefix f googleHomeModelInfo = false -> collect_field e f st = st.
Proof. intros Hf. unfold collect_field. now rewrite Hf. Qed.

(** A field with the marker: one client, one connection attempt, and a
    device exactly when the attempt succeeds. *)
Lemma collect_field_marker (e : mdns.ServiceEntry) (f : string) (st : Collector World) :
  HasPrefix f googleHomeModelInfo = true ->
  let c := {| id := fresh (env st); host := AddrV4 e; port := Port e |} in
  collect_field e f st
  = match client_Connect c (world (env st)) with
    | (Some err, w) =>
        {| env := {| world := w;
                     trace := (trace (env st)
                               ++ [EvNewClient c; EvConnect c (Some err);
                                   EvLog (LogConnectFailed err)])%list;
                     fresh := S (fresh (env st)) |};
           results := results st |}
    | (None, w) =>
        {| env := {| world := w;
                     trace := (trace (env st)
                               ++ [EvNewClient c; EvConnect c None])%list;
                     fresh := S (fresh (env st)) |};
           results := (results st ++ [device_of e (fresh (env st))])%list |}
    end.
Proof.
  intros Hf. unfold collect_field, NewClient, call, log. rewrite Hf. cbn.
  destruct (client_Connect _ (world (env st))) as [[err|] w]; cbn;
    rewrite <- !app_assoc; reflexivity.
Qed.

Lemma collect_fields_cons (e : mdns.ServiceEntry) (f : string) (fs : list string)
    (st : Collector World) :
  collect_fields e (f :: fs) st = collect_fields e fs (collect_field e f st).
Proof. reflexivity. Qed.

Lemma collect_app (pre post : list mdns.ServiceEntry) (st : Collector World) :
  collect (pre ++ post) st = collect post (collect pre st).
Proof. unfold collect. apply fold_left_app. Qed.

Lemma collect_cons (e : mdns.ServiceEntry) (es : list mdns.ServiceEntry)
    (st : Collector World) :
  collect (e :: es) st = collect es (collect_entry e st).
Proof. reflexivity. Qed.

(** *** What only grows *)

Lemma extends_refl {A : Type} (a : list A) : extends a a.
Proof. exists []. now rewrite app_nil_r. Qed.

Lemma extends_trans {A : Type} (a b c : list A) :
  extends a b -> extends b c -> extends a c.
Proof. intros [x ->] [y ->]. exists (x ++ y)%list. now rewrite app_assoc. Qed.

Lemma extends_app {A : Type} (a more : list A) : extends a (a ++ more).
Proof. now exists more. Qed.

Lemma extends_In {A : Type} (a b : list A) (x : A) :
  extends a b -> In x a -> In x b.
Proof. intros [more ->] Hx. apply in_or_app. now left. Qed.

Lemma grows_refl (st : Collector World) : grows st st.
Proof. split; apply extends_refl. Qed.

Lemma grows_trans (a b c : Collector World) : grows a b -> grows b c -> grows a c.
Proof. intros [? ?] [? ?]. split; eapply extends_trans; eassumption. Qed.

Lemma collect_field_grows (e : mdns.ServiceEntry) (f : string) (st : Collector World) :
  grows st (collect_field e f st).
Proof.
  destruct (HasPrefix f googleHomeModelInfo) eqn:Hf.
  - rewrite collect_field_marker by exact Hf.
    destruct (client_Connect _ _) as [[err|] w]; split; cbn;
      try apply extends_refl; apply extends_app.
  - rewrite collect_field_skip by exact Hf. apply grows_refl.
Qed.

Lemma collect_fields_grows (e : mdns.ServiceEntry) (fs : list string)
    (st : Collector World) :
  grows st (collect_fields e fs st).
Proof.
  revert st. induction fs as [|f fs IH]; intros st; [apply grows_refl|].
  rewrite collect_fields_cons.
  eapply grows_trans; [apply collect_field_grows | apply IH].
Qed.

Lemma collect_entry_grows (e : mdns.ServiceEntry) (st : Collector World) :
  grows st (collect_entry e st).
Proof.
  unfold collect_entry.
  eapply grows_trans; [| apply collect_fields_grows].
  split; cbn; [apply extends_refl | apply extends_app].
Qed.

Lemma collect_grows (es : list mdns.ServiceEntry) (st : Collector World) :
  grows st (collect es st).
Proof.
  revert st. induction es as [|e es IH]; intros st; [apply grows_refl|].
  rewrite collect_cons.
  eapply grows_trans; [apply collect_entry_grows | apply IH].
Qed.

(** *** One connection, and one device, per marker field *)

Lemma connect_attempts_app (a b : list Event) :
  connect_attempts (a ++ b) = (connect_attempts a ++ connect_attempts b)%list.
Proof. apply flat_map_app. Qed.

Lemma connect_attempts_In (evs : list Event) (c : Client) (err : option error) :
  In (c, err) (connect_attempts evs) <-> In (EvConnect c err) evs.
Proof.
  unfold connect_attempts. rewrite in_flat_map. split.
  - intros (ev & Hev & Hin). destruct ev; cbn in Hin; try contradiction.
    destruct Hin as [[= <- <-]|[]]. exact Hev.
  - intros Hin. exists (EvConnect c err). split; [exact Hin | now left].
Qed.

Lemma accepted_app (e : mdns.ServiceEntry) (a b : list (Client * option error)) :
  accepted e (a ++ b) = (accepted e a ++ accepted e b)%list.
Proof. apply flat_map_app. Qed.

(** What one field does to the trace, to [results] and to the next client
    identity, in terms of its attempt. *)
Lemma collect_field_attempt (e : mdns.ServiceEntry) (f : string)
    (st : Collector World) :
  connect_attempts (trace (env (collect_field e f st)))
  = (connect_attempts (trace (env st)) ++ field_attempt e f st)%list
  /\ results (collect_field e f st)
     = (results st ++ accepted e (field_attempt e f st))%list
  /\ fresh (env (collect_field e f st))
     = fresh (env st) + length (field_attempt e f st).
Proof.
  unfold field_attempt.
  destruct (HasPrefix f googleHomeModelInfo) eqn:Hf.
  - rewrite collect_field_marker by exact Hf.
    destruct (client_Connect _ (world (env st))) as [[err|] w];
      cbn [env trace results fresh fst length accepted flat_map snd app];
      rewrite connect_attempts_app; cbn; rewrite ?app_nil_r;
      repeat split; lia.
  - rewrite collect_field_skip by exact Hf. cbn.
    rewrite !app_nil_r. repeat split; lia.
Qed.

Lemma collect_fields_attempts (e : mdns.ServiceEntry) (fs : list string)
    (st : Collector World) :
  connect_attempts (trace (env (collect_fields e fs st)))
  = (connect_attempts (trace (env st)) ++ fields_attempts e fs st)%list
  /\ results (collect_fields e fs st)
     = (results st ++ accepted e (fields_attempts e fs st))%list.
Proof.
  revert st. induction fs as [|f fs IH]; intros st.
  - cbn. now rewrite !app_nil_r.
  - rewrite collect_fields_cons. cbn [fields_attempts].
    destruct (IH (collect_field e f st)) as [-> ->].
    destruct (collect_field_attempt e f st) as (-> & -> & _).
    rewrite accepted_app, <- !app_assoc. split; reflexivity.
Qed.

Lemma fields_attempts_length (e : mdns.ServiceEntry) (fs : list string)
    (st : Collector World) :
  length (fields_attempts e fs st)
  = length (List.filter (fun f => HasPrefix f googleHomeModelInfo) fs).
Proof.
  revert st. induction fs as [|f fs IH]; intros st; [reflexivity|].
  cbn [fields_attempts List.filter]. rewrite length_app, IH.
  unfold field_attempt. now destruct (HasPrefix f googleHomeModelInfo).
Qed.



(** The attempts read off the trace are those of the inner loop. *)
Lemma entry_attempts_fields (e : mdns.ServiceEntry) (st : Collector World) :
  entry_attempts e st
  = fields_attempts e (InfoFields e)
      {| env := snd (log (LogServiceEntry e) (env st)); results := results st |}.
Proof.
  unfold entry_attempts, collect_entry.
  destruct (collect_fields_attempts e (InfoFields e)
              {| env := snd (log (LogServiceEntry e) (env st));
                 results := results st |}) as [-> _].
  cbn [env log snd trace]. rewrite connect_attempts_app. cbn.
  rewrite app_nil_r. rewrite skipn_app, Nat.sub_diag, skipn_all. reflexivity.
Qed.

Lemma collect_entry_accepted (e : mdns.ServiceEntry) (st : Collector World) :
  results (collect_entry e st)
  = (results st ++ accepted e (entry_attempts e st))%list.
Proof.
  rewrite entry_attempts_fields. unfold collect_entry.
  now destruct (collect_fields_attempts e (InfoFields e)
                  {| env := snd (log (LogServiceEntry e) (env st));
                     results := results st |}) as [_ ->].
Qed.





Lemma entry_attempts_length (e : mdns.ServiceEntry)
    (st : Collector World) :
  length (entry_attempts e st) = length (marker_fields e).
Proof. rewrite entry_attempts_fields. apply fields_attempts_length. Qed.


(** *** Where a device comes from *)

Lemma collect_field_origin (e : mdns.ServiceEntry) (f : string)
    (st : Collector World) (d : CastDevice) :
  In f (InfoFields e) ->
  In d (results (collect_field e f st)) ->
  In d (results st) \/ (ServiceEntry d = e /\ well_connected d).
Proof.
  intros Hin Hd.
  destruct (HasPrefix f googleHomeModelInfo) eqn:Hf.
  - rewrite collect_field_marker in Hd by exact Hf.
    destruct (client_Connect _ (world (env st))) as [[err|] w] eqn:Hc;
      cbn [results] in Hd; [now left|].
    apply in_app_or in Hd as [Hd|[<-|[]]]; [now left|].
    right. split; [reflexivity|].
    repeat split; try reflexivity.
    + now exists f.
    + exists (world (env st)). cbn [device_of client]. now rewrite Hc.
  - rewrite collect_field_skip in Hd by exact Hf. now left.
Qed.

Lemma collect_fields_origin (e : mdns.ServiceEntry) (fs : list string)
    (st : Collector World) (d : CastDevice) :
  (forall f, In f fs -> In f (InfoFields e)) ->
  In d (results (collect_fields e fs st)) ->
  In d (results st) \/ (ServiceEntry d = e /\ well_connected d).
Proof.
  revert st. induction fs as [|f fs IH]; intros st Hfs Hd; [now left|].
  rewrite collect_fields_cons in Hd.
  apply IH in Hd as [Hd|Hd]; [| now right | intros g Hg; apply Hfs; now right].
  apply collect_field_origin in Hd; [exact Hd | apply Hfs; now left].
Qed.

Lemma collect_entry_origin (e : mdns.ServiceEntry) (st : Collector World)
    (d : CastDevice) :
  In d (results (collect_entry e st)) ->
  In d (results st) \/ (ServiceEntry d = e /\ well_connected d).
Proof.
  unfold collect_entry. intros Hd.
  apply collect_fields_origin in Hd; [exact Hd | auto].
Qed.

Lemma collect_origin (es : list mdns.ServiceEntry) (st : Collector World)
    (d : CastDevice) :
  In d (results (collect es st)) ->
  In d (results st) \/ (In (ServiceEntry d) es /\ well_connected d).
Proof.
  revert st. induction es as [|e es IH]; intros st Hd; [now left|].
  rewrite collect_cons in Hd.
  apply IH in Hd as [Hd|[Hin Hw]]; [| right; split; [now right | exact Hw]].
  apply collect_entry_origin in Hd as [Hd|[<- Hw]]; [now left|].
  right. split; [now left | exact Hw].
Qed.

(** *** A failed connection is skipped, and only that *)


End CollectorFacts.

(** ** Discovery: the function and its goroutine, interleaved *)

Section InterleavingFacts.
Import strings url homecast.
Context {World : Type} `{Cast World}.

Lemma close_count_app (a b : list Event) :
  close_count (a ++ b) = close_count a + close_count b.
Proof. unfold close_count. now rewrite flat_map_app, length_app. Qed.

Lemma collect_field_close_count (e : mdns.ServiceEntry) (f : string)
    (st : Collector World) :
  close_count (trace (env (collect_field e f st))) = close_count (trace (env st)).
Proof.
  destruct (HasPrefix f googleHomeModelInfo) eqn:Hf.
  - rewrite collect_field_marker by exact Hf.
    destruct (client_Connect _ _) as [[err|] w]; cbn [env trace];
      rewrite close_count_app; cbn; lia.
  - now rewrite collect_field_skip by exact Hf.
Qed.

Lemma sys_inv_start (w : World) (pending : list mdns.ServiceEntry)
    (err : option error) :
  sys_inv (LookupAndConnect w pending err).
Proof.
  constructor; cbn; try reflexivity; try discriminate; try lia.
Qed.

Lemma step_main_inv (s s' : Sys World) :
  sys_inv s -> step_main s = Some s' -> sys_inv s'.
Proof.
  intros [Hres Hret Hfs Hcl Hcnt Hb]. unfold step_main.
  destruct (main_pc s) as [|err| | |r] eqn:Hpc; cbn in Hcl, Hcnt.
  - destruct (lookup_pending s) as [|entry pending].
    + intros [= <-]. constructor; cbn -[close_count]; try assumption; try discriminate.
      rewrite close_count_app, Hcnt. reflexivity.
    + destruct (length (entriesCh s) <? entriesCh_cap)%nat eqn:Hlt; [|discriminate].
      intros [= <-]. constructor; cbn -[close_count]; try assumption; try discriminate.
      apply Nat.ltb_lt in Hlt. rewrite length_app. cbn. lia.
  - intros [= <-]. constructor; cbn -[close_count]; try assumption; try discriminate.
    + destruct err; cbn; assumption.
    + destruct err; cbn -[close_count]; [rewrite close_count_app, Hcnt|]; trivial.
  - rewrite Hcl. cbn. intros [= <-].
    constructor; cbn -[close_count]; try assumption; try discriminate; try reflexivity.
    rewrite close_count_app, Hcnt. reflexivity.
  - intros [= <-]. constructor; cbn -[close_count]; try assumption.
    intros r [= <-]. apply extends_refl.
  - discriminate.
Qed.

Lemma step_collector_inv (s s' : Sys World) :
  sys_inv s -> step_collector s = Some s' -> sys_inv s'.
Proof.
  intros [Hres Hret Hfs Hcl Hcnt Hb]. unfold step_collector.
  destruct (collector_pc s) as [|e [|f fs]|] eqn:Hpc.
  - destruct (entriesCh s) as [|entry buffer] eqn:Hch.
    + destruct (entriesCh_closed s) eqn:Hclosed; [|discriminate].
      intros [= <-]. constructor; cbn -[close_count]; try assumption; try discriminate.
      now rewrite Hclosed.
    + intros [= <-]. constructor; cbn -[close_count]; try assumption.
      * intros e fs [= <- <-] f Hf. exact Hf.
      * rewrite close_count_app, Hcnt. cbn. lia.
      * cbn in Hb. lia.
  - intros [= <-]. constructor; cbn -[close_count]; try assumption; discriminate.
  - intros [= <-]. constructor; cbn -[close_count]; try assumption.
    + intros d Hd.
      apply collect_field_origin in Hd as [Hd|[_ Hw]];
        [now apply Hres | exact Hw |].
      apply (Hfs e (f :: fs) eq_refl). now left.
    + intros r Hr. eapply extends_trans; [now apply Hret|].
      apply collect_field_grows.
    + intros e' fs' [= <- <-] g Hg. apply (Hfs e (f :: fs) eq_refl). now right.
    + now rewrite collect_field_close_count.
  - discriminate.
Qed.

(** The invariant holds all along every run of the call. *)
Lemma run_inv (schedule : list Thread) (s s' : Sys World) :
  sys_inv s -> run schedule s = Some s' -> sys_inv s'.
Proof.
  revert s. induction schedule as [|t schedule IH]; intros s Hinv; cbn.
  - now intros [= <-].
  - destruct (step t s) as [s1|] eqn:Hstep; [|discriminate].
    apply IH. destruct t; cbn in Hstep.
    + eapply step_main_inv; eassumption.
    + eapply step_collector_inv; eassumption.
Qed.

Lemma run_app (a b : list Thread) (s : Sys World) :
  run (a ++ b) s = match run a s with Some s' => run b s' | None => None end.
Proof.
  revert s. induction a as [|t a IH]; intros s; cbn; [reflexivity|].
  destruct (step t s); [apply IH | reflexivity].
Qed.

(** Left to itself on a received entry, the goroutine does to the shared
    variables what [collect_fields] does, and comes back to the receive. *)
Lemma goroutine_runs_fields (e : mdns.ServiceEntry) (fs : list string)
    (s : Sys World) :
  collector_pc s = AtFields e fs ->
  run (repeat Goroutine (S (length fs))) s
  = Some (set_collector AtRange (entriesCh s)
            (collect_fields e fs (shared s)) s).
Proof.
  revert s. induction fs as [|f fs IH]; intros s Hpc.
  - cbn. unfold step_collector. now rewrite Hpc.
  - change (repeat Goroutine (S (length (f :: fs))))
      with (Goroutine :: repeat Goroutine (S (length fs))).
    cbn [run step]. unfold step_collector at 1. rewrite Hpc. cbv beta iota.
    rewrite (IH (set_collector (AtFields e fs) (entriesCh s)
                   (collect_field e f (shared s)) s) eq_refl).
    reflexivity.
Qed.

(** The same from the receive on: one entry of the buffer is one
    [collect_entry]. *)
Lemma goroutine_runs_collect_entry (e : mdns.ServiceEntry)
    (buffer : list mdns.ServiceEntry) (s : Sys World) :
  collector_pc s = AtRange -> entriesCh s = e :: buffer ->
  run (repeat Goroutine (2 + length (InfoFields e))) s
  = Some (set_collector AtRange buffer (collect_entry e (shared s)) s).
Proof.
  intros Hpc Hch.
  change (repeat Goroutine (2 + length (InfoFields e)))
    with (Goroutine :: repeat Goroutine (S (length (InfoFields e)))).
  cbn [run step]. unfold step_collector at 1. rewrite Hpc, Hch. cbv beta iota.
  rewrite (goroutine_runs_fields e (InfoFields e)) by reflexivity. reflexivity.
Qed.

(** In the orderly schedule the call returns what the collector loop makes
    of the entries delivered, in the order of their delivery. *)
Lemma orderly_run_from (es : list mdns.ServiceEntry) (s : Sys World) :
  main_pc s = AtLookup -> lookup_pending s = es -> entriesCh s = [] ->
  collector_pc s = AtRange -> entriesCh_closed s = false ->
  exists s', run (orderly es) s = Some s'
             /\ main_pc s' = Returned (results (collect es (shared s))).
Proof.
  revert s. induction es as [|e es IH]; intros s Hpc Hpend Hch Hcoll Hcl.
  - eexists. cbn. unfold step_main at 1. rewrite Hpc, Hpend. cbn.
    rewrite Hcl. cbn. split; [reflexivity|].
    now destruct (lookup_err s).
  - cbn [orderly run step]. unfold step_main at 1.
    rewrite Hpc, Hpend, Hch. cbn [length app Nat.ltb Nat.leb entriesCh_cap].
    rewrite run_app.
    rewrite (goroutine_runs_collect_entry e []) by (cbn; assumption || reflexivity).
    destruct (IH (set_collector AtRange [] (collect_entry e (shared s))
                    {| lookup_pending := es; lookup_err := lookup_err s;
                       entriesCh := [e];
                       entriesCh_closed := entriesCh_closed s;
                       main_pc := AtLookup; collector_pc := collector_pc s;
                       shared := shared s |}))
      as (s' & Hrun & Hret); try reflexivity; try (cbn; assumption).
    exists s'. split; [exact Hrun|]. rewrite Hret. reflexivity.
Qed.

Lemma orderly_run (w : World) (es : list mdns.ServiceEntry) (err : option error) :
  exists s, run (orderly es) (LookupAndConnect w es err) = Some s
            /\ main_pc s
               = Returned
                   (results
                      (collect es
                         {| env := {| world := w; trace := []; fresh := 0 |};
                            results := [] |})).
Proof. apply orderly_run_from; reflexivity. Qed.

(** The channel is closed exactly once: in every run of the call the trace
    holds no close before [close(entriesCh)] and one ever after, and the
    close itself never finds the channel closed. *)
Lemma channel_closed_once (w : World) (pending : list mdns.ServiceEntry)
    (err : option error) (schedule : list Thread) (s : Sys World) :
  run schedule (LookupAndConnect w pending err) = Some s ->
  close_count (trace (env (shared s)))
  = (if before_close (main_pc s) then 0 else 1)
  /\ (main_pc s = AtClose -> step Main s <> None).
Proof.
  intros Hrun.
  destruct (run_inv _ _ _ (sys_inv_start w pending err) Hrun)
    as [_ _ _ Hcl Hcnt _].
  split; [exact Hcnt|].
  intros Hpc. cbn. unfold step_main. rewrite Hpc in *. cbn in Hcl.
  now rewrite Hcl.
Qed.

Lemma collect_fields_no_marker (e : mdns.ServiceEntry) (fs : list string)
    (st : Collector World) :
  (forall f, In f fs -> HasPrefix f googleHomeModelInfo = false) ->
  collect_fields e fs st = st.
Proof.
  revert st. induction fs as [|f fs IH]; intros st Hfs; [reflexivity|].
  rewrite collect_fields_cons, collect_field_skip by (apply Hfs; now left).
  apply IH. intros g Hg. apply Hfs. now right.
Qed.

(** C4. In every run of the call: an advertisement none of whose descriptor
    fields begins with the marker is only logged by the collector, which
    makes no client and no device for it; none of the devices in [results],
    and none of the devices the call returns, is built from it. *)
Theorem no_marker_no_device (w : World) (pending : list mdns.ServiceEntry)
    (err : option error) (schedule : list Thread) (s : Sys World)
    (e : mdns.ServiceEntry) :
  run schedule (LookupAndConnect w pending err) = Some s ->
  (forall f, In f (InfoFields e) -> HasPrefix f googleHomeModelInfo = false) ->
  (forall st : Collector World,
      results (collect_entry e st) = results st
      /\ trace (env (collect_entry e st))
         = (trace (env st) ++ [EvLog (LogServiceEntry e)])%list)
  /\ (forall d, In d (results (shared s)) -> ServiceEntry d <> e)
  /\ (forall r, main_pc s = Returned r ->
                forall d, In d r -> ServiceEntry d <> e).
Proof.
  intros Hrun He.
  destruct (run_inv _ _ _ (sys_inv_start w pending err) Hrun)
    as [Hres Hret _ _ _ _].
  assert (Hnot : forall d, In d (results (shared s)) -> ServiceEntry d <> e).
  { intros d Hd Heq. destruct (Hres d Hd) as [(f & Hin & Hf) _].
    rewrite Heq in Hin. rewrite (He f Hin) in Hf. discriminate. }
  split; [|split].
  - intros st. unfold collect_entry.
    rewrite collect_fields_no_marker by exact He. split; reflexivity.
  - exact Hnot.
  - intros r Hr d Hd. apply Hnot. eapply extends_In; [apply Hret|]; eassumption.
Qed.

(** C6. In every run of a call whose lookup fails: once the lookup has
    returned, the function is never blocked; from the check of the error it
    logs the failure, closes the channel and returns the devices in
    [results] at that point; and what a call has returned is always a
    beginning of what was collected. The value returned is a sequence of
    devices: there is no error for the caller. *)
Theorem lookup_failure_still_returns (w : World)
    (pending : list mdns.ServiceEntry) (e : error) (schedule : list Thread)
    (s : Sys World) :
  run schedule (LookupAndConnect w pending (Some e)) = Some s ->
  (main_pc s = AtErrCheck (Some e) ->
   exists s', run [Main; Main; Main] s = Some s'
              /\ main_pc s' = Returned (results (shared s))
              /\ trace (env (shared s'))
                 = (trace (env (shared s))
                    ++ [EvLog (LogLookupFailed e); EvCloseChannel])%list)
  /\ (main_pc s <> AtLookup -> (forall r, main_pc s <> Returned r) ->
      step Main s <> None)
  /\ (forall r, main_pc s = Returned r -> extends r (results (shared s))).
Proof.
  intros Hrun.
  destruct (run_inv _ _ _ (sys_inv_start w pending (Some e)) Hrun)
    as [_ Hret _ Hcl _ _].
  split; [|split].
  - intros Hpc. rewrite Hpc in Hcl. cbn in Hcl.
    eexists. cbn. unfold step_main at 1. rewrite Hpc. cbn.
    rewrite Hcl. cbn. split; [reflexivity|]. split; [reflexivity|].
    unfold record. cbn. now rewrite <- app_assoc.
  - intros Hlookup Hnot. cbn. unfold step_main.
    destruct (main_pc s) as [|err| | |r] eqn:Hpc; cbn in Hcl; rewrite ?Hcl;
      try discriminate; congruence.
  - exact Hret.
Qed.

End InterleavingFacts.

(** C4, instance. The printer advertises no field that begins with the
    marker (one of its fields only contains it): in an orderly pass over the
    printer and the kitchen the call returns the kitchen alone. *)
Lemma no_marker_no_device_witness :
  exists s,
    homecast.run Demo.orderly_pass
      (homecast.LookupAndConnect tt [Demo.printer; Demo.kitchen] None) = Some s
    /\ homecast.main_pc s = homecast.Returned [Demo.device Demo.kitchen 0]
    /\ (forall f, In f (InfoFields Demo.printer) ->
                  strings.HasPrefix f homecast.googleHomeModelInfo = false)
    /\ (forall d, In d (homecast.results (homecast.shared s)) ->
                  homecast.ServiceEntry d <> Demo.printer)
    /\ (forall r, homecast.main_pc s = homecast.Returned r ->
                  forall d, In d r -> homecast.ServiceEntry d <> Demo.printer).
Proof.
  eexists. split; [vm_compute; reflexivity|].
  split; [reflexivity|].
  assert (Hp : forall f, In f (InfoFields Demo.printer) ->
                         strings.HasPrefix f homecast.googleHomeModelInfo = false).
  { intros f [<-|[<-|[]]]; reflexivity. }
  split; [exact Hp|].
  refine (proj2 (no_marker_no_device tt [Demo.printer; Demo.kitchen] None
                   Demo.orderly_pass _ Demo.printer _ Hp)).
  vm_compute. reflexivity.
Defined.

(** C6, instance. The lookup that delivered the kitchen answers with an
    error: the call logs it and returns the kitchen. *)
Lemma lookup_failure_still_returns_witness :
  exists s,
    homecast.run Demo.pass_until_lookup_returns
      (homecast.LookupAndConnect tt [Demo.kitchen]
         (Some (errors_New "timeout"))) = Some s
    /\ homecast.main_pc s = homecast.AtErrCheck (Some (errors_New "timeout"))
    /\ exists s', homecast.run [homecast.Main; homecast.Main; homecast.Main] s
                  = Some s'
                  /\ homecast.main_pc s'
                     = homecast.Returned [Demo.device Demo.kitchen 0].
Proof.
  eexists. split; [vm_compute; reflexivity|].
  split; [reflexivity|].
  destruct (proj1 (lookup_failure_still_returns tt [Demo.kitchen]
                     (errors_New "timeout") Demo.pass_until_lookup_returns _
                     ltac:(vm_compute; reflexivity)) eq_refl)
    as (s' & Hrun & Hpc & _).
  exists s'. split; [exact Hrun | exact Hpc].
Defined.

(** C1. The function does not wait for its goroutine. In the hasty pass the
    kitchen, which qualifies and accepts connections, is in the channel when
    the channel is closed, and the function returns an empty slice with the
    entry still queued; the goroutine drains the channel afterwards and
    appends the kitchen to [results], which the caller no longer sees. *)
Theorem return_does_not_wait_for_collector :
  exists s,
    homecast.run Demo.hasty_pass
      (homecast.LookupAndConnect tt [Demo.kitchen] None) = Some s
    /\ homecast.main_pc s = homecast.Returned []
    /\ homecast.entriesCh s = [Demo.kitchen]
    /\ homecast.entriesCh_closed s = true
    /\ homecast.collector_pc s = homecast.AtRange
    /\ exists s',
         homecast.run (repeat homecast.Goroutine 6) s = Some s'
         /\ homecast.collector_pc s' = homecast.Exited
         /\ homecast.entriesCh s' = []
         /\ homecast.results (homecast.shared s') = [Demo.device Demo.kitchen 0]
         /\ homecast.main_pc s' = homecast.Returned [].
Proof.
  eexists. split; [vm_compute; reflexivity|].
  repeat (split; [reflexivity|]).
  eexists. split; [vm_compute; reflexivity|].
  repeat split.
Qed.

(** ** Instances in the demonstration household *)



(** Scenario C of the specification: speaking "hello" in "en" resolves the
    address and issues one load-media command for it. *)
Example Speak_hello :
  homecast.Speak (Demo.device Demo.kitchen 0) "hello" "en" Demo.start
  = (None,
     {| homecast.world := tt;
        homecast.trace :=
          [EvMedia (homecast.client (Demo.device Demo.kitchen 0)) None;
           EvLog (LogLoadMedia
                    "https://translate.google.com/translate_tts?client=tw-ob&ie=UTF-8&q=hello&tl=en");
           EvLoadMedia (homecast.client (Demo.device Demo.kitchen 0))
             {| ContentId :=
                  "https://translate.google.com/translate_tts?client=tw-ob&ie=UTF-8&q=hello&tl=en";
                StreamType := "BUFFERED"; ContentType := "audio/mp3";
                MetaData := zero_MediaMetaData |}
             0 true None None];
        homecast.fresh := 0 |}).
Proof. vm_compute. reflexivity. Qed.

(** Scenario D of the specification: a queue of two titled items goes out
    as one queue-load command, in order, from index 0. *)
Example QueueLoad_two_items :
  queue_load_commands
    (homecast.trace
       (snd (homecast.QueueLoad (Demo.device Demo.kitchen 0)
               [{| homecast.URL := homecast.tts_url "a" "en";
                   homecast.Title := "T1" |};
                {| homecast.URL := homecast.tts_url "b" "en";
                   homecast.Title := "T2" |}]
               Demo.start)))
  = [(homecast.client (Demo.device Demo.kitchen 0),
      [{| ContentId :=
            "https://translate.google.com/translate_tts?client=tw-ob&ie=UTF-8&q=a&tl=en";
          StreamType := "BUFFERED"; ContentType := "audio/mp3";
          MetaData := {| MetaDataType := 3; Title := "T1" |} |};
       {| ContentId :=
            "https://translate.google.com/translate_tts?client=tw-ob&ie=UTF-8&q=b&tl=en";
          StreamType := "BUFFERED"; ContentType := "audio/mp3";
          MetaData := {| MetaDataType := 3; Title := "T2" |} |}],
      0%Z)].
Proof. vm_compute. reflexivity. Qed.

(** Escaping at work: a space becomes a plus sign, reserved and non-ASCII
    bytes are percent-escaped, and the text comes back from the URL. *)
Example tts_escapes :
  homecast.tts "café & t=1/2" "pt-BR"
  = Ok (homecast.tts_url "caf%C3%A9+%26+t%3D1%2F2" "pt-BR").
Proof. vm_compute. reflexivity. Qed.

(** Scenarios A and B of the specification, in an orderly pass: the kitchen
    alone gives one device, the printer alone gives none. *)
Example scenario_A :
  option_map homecast.main_pc
    (homecast.run (homecast.orderly [Demo.kitchen])
       (homecast.LookupAndConnect tt [Demo.kitchen] None))
  = Some (homecast.Returned [Demo.device Demo.kitchen 0]).
Proof. vm_compute. reflexivity. Qed.

Example scenario_B :
  option_map homecast.main_pc
    (homecast.run (homecast.orderly [Demo.printer])
       (homecast.LookupAndConnect tt [Demo.printer] None))
  = Some (homecast.Returned []).
Proof. vm_compute. reflexivity. Qed.

(** * Further properties of the code *)

(** ** Playback: what the four operations send, and what they leave alone *)

Section PlaybackFacts.
Import strings url homecast.
Context {World : Type} `{Cast World}.

(** X1. [QueueInsert] builds, slot by slot, the item of each datum in order,
    as [QueueLoad] does. When the media-control handle is obtained it logs
    and issues exactly one queue-insert command with these items and no start
    index, and no queue-load command; when the handle is not obtained it
    returns that error and issues nothing. *)
Theorem QueueInsert_issues_queue_insert (g : CastDevice) (data : list MediaData)
    (st : Env World) :
  let '(handle_err, w1) := client_Media (client g) (world st) in
  match handle_err with
  | Some e =>
      QueueInsert g data st
      = (Some e, {| world := w1;
                    trace := trace st ++ [EvMedia (client g) (Some e)];
                    fresh := fresh st |})
  | None =>
      let '(err, w2) :=
        media_QueueInsert (client g) (map queue_item data) None w1 in
      QueueInsert g data st
      = (err, {| world := w2;
                 trace := trace st
                          ++ [EvMedia (client g) None;
                              EvLog LogQueueInsert;
                              EvQueueInsert (client g) (map queue_item data)
                                None err];
                 fresh := fresh st |})
      /\ queue_insert_commands (trace (snd (QueueInsert g data st)))
         = (queue_insert_commands (trace st)
            ++ [(client g, map queue_item data)])%list
      /\ queue_load_commands (trace (snd (QueueInsert g data st)))
         = queue_load_commands (trace st)
  end.
Proof.
  unfold QueueInsert, bind, call, log, ret. rewrite build_items_map.
  destruct (client_Media (client g) (world st)) as [[e|] w1]; cbn.
  - reflexivity.
  - destruct (media_QueueInsert _ _ _ w1) as [err w2]; cbn.
    rewrite <- !app_assoc. cbn. split; [reflexivity|].
    unfold queue_insert_commands, queue_load_commands.
    rewrite !flat_map_app. cbn. rewrite app_nil_r. split; reflexivity.
Qed.

(** X2. The slice the queue operations make and fill keeps none of its zero
    values: every item built has stream type BUFFERED, content type
    audio/mp3 and metadata of kind 3. Building follows concatenation: the
    items of two playlists put end to end are the items of the first followed
    by the items of the second, and an empty playlist gives no item. *)
Theorem build_items_filled (a b : list MediaData) :
  Forall (fun item => StreamType item = "BUFFERED"
                      /\ ContentType item = "audio/mp3"
                      /\ MetaDataType (MetaData item) = 3%Z)
         (build_items a)
  /\ build_items (a ++ b) = (build_items a ++ build_items b)%list
  /\ (build_items a = [] <-> a = []).
Proof.
  rewrite !build_items_map. split; [|split].
  - apply List.Forall_forall. intros item Hin.
    apply in_map_iff in Hin as (d & <- & _). repeat split.
  - apply map_app.
  - destruct a; cbn; split; congruence.
Qed.

(** An operation that leaves the control session alone: it makes no client
    (the next free identity stays), it records no client made, no
    connection and no close, and it only adds to the trace. *)
Definition keeps_session (m : M World (option error)) : Prop :=
  forall st, fresh (snd (m st)) = fresh st
             /\ session_events (trace (snd (m st))) = session_events (trace st)
             /\ extends (trace st) (trace (snd (m st))).

Lemma session_events_app (a b : list Event) :
  session_events (a ++ b) = (session_events a ++ session_events b)%list.
Proof. apply List.filter_app. Qed.

Lemma Play_keeps_session (g : CastDevice) (u : url.URL) :
  keeps_session (Play g u).
Proof.
  intros st. unfold Play, bind, call, log, ret.
  destruct (client_Media (client g) (world st)) as [[e|] w1]; cbn.
  - rewrite session_events_app. cbn. rewrite app_nil_r.
    repeat split. apply extends_app.
  - destruct (media_LoadMedia _ _ _ _ _ w1) as [err w2]; cbn.
    rewrite !session_events_app. cbn. rewrite !app_nil_r.
    repeat split. rewrite <- !app_assoc. apply extends_app.
Qed.

Lemma QueueLoad_keeps_session (g : CastDevice) (data : list MediaData) :
  keeps_session (QueueLoad g data).
Proof.
  intros st. unfold QueueLoad, bind, call, log, ret.
  destruct (client_Media (client g) (world st)) as [[e|] w1]; cbn.
  - rewrite session_events_app. cbn. rewrite app_nil_r.
    repeat split. apply extends_app.
  - destruct (media_QueueLoad _ _ _ _ w1) as [err w2]; cbn.
    rewrite !session_events_app. cbn. rewrite !app_nil_r.
    repeat split. rewrite <- !app_assoc. apply extends_app.
Qed.

Lemma QueueInsert_keeps_session (g : CastDevice) (data : list MediaData) :
  keeps_session (QueueInsert g data).
Proof.
  intros st. unfold QueueInsert, bind, call, log, ret.
  destruct (client_Media (client g) (world st)) as [[e|] w1]; cbn.
  - rewrite session_events_app. cbn. rewrite app_nil_r.
    repeat split. apply extends_app.
  - destruct (media_QueueInsert _ _ _ w1) as [err w2]; cbn.
    rewrite !session_events_app. cbn. rewrite !app_nil_r.
    repeat split. rewrite <- !app_assoc. apply extends_app.
Qed.

(** X3. None of the playback operations touches the control session: [Play],
    [Speak], [QueueLoad] and [QueueInsert] make no client, connect nothing
    and close nothing, whether they succeed or fail, and all they do to the
    trace is add to its end. Opening and closing stay with [Connect] and
    [Close]. *)
Theorem playback_keeps_session (g : CastDevice) (u : url.URL)
    (text lang : string) (data : list MediaData) :
  keeps_session (Play g u)
  /\ keeps_session (Speak g text lang)
  /\ keeps_session (QueueLoad g data)
  /\ keeps_session (QueueInsert g data).
Proof.
  split; [apply Play_keeps_session|].
  split; [|split; [apply QueueLoad_keeps_session | apply QueueInsert_keeps_session]].
  unfold Speak. destruct (tts text lang) as [u'|e].
  - apply Play_keeps_session.
  - intros st. cbn. repeat split. apply extends_refl.
Qed.

End PlaybackFacts.

(** ** [tts]: the address and its query *)

Section TtsFacts.
Import strings url homecast.

(** Printing the URL of the template gives the address back, whatever the
    two operands are. *)
Lemma tts_url_String (q tl : string) : String_ (tts_url q tl) = tts_address q tl.
Proof. vm_compute. reflexivity. Qed.

(** The whole answer of [ParseQuery] on the query [tts] writes: the four
    parameters and no error. *)
Lemma tts_ParseQuery (text lang : string) :
  ParseQuery (RawQuery (tts_url (QueryEscape text) (QueryEscape lang)))
  = (<["tl" := [lang]]> (<["q" := [text]]>
       (<["ie" := ["UTF-8"]]> (<["client" := ["tw-ob"]]> ∅))), None).
Proof.
  pose proof (QueryEscape_query_bytes text) as Ht.
  pose proof (QueryEscape_query_bytes lang) as Hl.
  unfold ParseQuery. cbn [RawQuery tts_url].
  change ("client=tw-ob&ie=UTF-8&q=" ++ QueryEscape text ++ "&tl=" ++ QueryEscape lang)
    with ("client=tw-ob" ++ String "&" ("ie=UTF-8" ++ String "&"
            (("q" ++ String "=" (QueryEscape text)) ++ String "&"
               ("tl" ++ String "=" (QueryEscape lang))))).
  rewrite parseQuery_segment by reflexivity.
  rewrite (parseQuery_body_pair _ _ "client" "tw-ob" "client" "tw-ob")
    by (reflexivity || discriminate).
  cbn [fst snd].
  rewrite parseQuery_segment by reflexivity.
  rewrite (parseQuery_body_pair _ _ "ie" "UTF-8" "ie" "UTF-8")
    by (reflexivity || discriminate).
  cbn [fst snd].
  rewrite parseQuery_segment
    by (rewrite ContainsByte_app; cbn [ContainsByte orb];
        now rewrite (all_bytes_absent query_byte _ "&" eq_refl Ht)).
  rewrite (parseQuery_body_pair _ _ "q" (QueryEscape text) "q" text);
    [| discriminate | reflexivity
     | exact (all_bytes_absent query_byte _ ";" eq_refl Ht)
     | reflexivity | reflexivity | apply QueryUnescape_QueryEscape].
  cbn [fst snd].
  rewrite parseQuery_last;
    [| discriminate
     | rewrite ContainsByte_app; cbn [ContainsByte orb];
       now rewrite (all_bytes_absent query_byte _ "&" eq_refl Hl)].
  rewrite (parseQuery_body_pair _ _ "tl" (QueryEscape lang) "tl" lang);
    [| discriminate | reflexivity
     | exact (all_bytes_absent query_byte _ ";" eq_refl Hl)
     | reflexivity | reflexivity | apply QueryUnescape_QueryEscape].
  rewrite lookup_empty.
  rewrite (lookup_insert_ne _ "client" "ie") by discriminate.
  rewrite lookup_empty.
  rewrite (lookup_insert_ne _ "ie" "q"), (lookup_insert_ne _ "client" "q")
    by discriminate.
  rewrite lookup_empty.
  rewrite (lookup_insert_ne _ "q" "tl"), (lookup_insert_ne _ "ie" "tl"),
    (lookup_insert_ne _ "client" "tl") by discriminate.
  rewrite lookup_empty.
  reflexivity.
Qed.

(** X4. The URL [tts] returns prints, with [URL.String], as exactly the
    address the template spells with the two escaped inputs: parsing keeps
    every byte, nothing is re-escaped or reordered, and this string is the
    content id [Play] is given. *)
Theorem tts_prints_its_address (text lang : string) :
  match tts text lang with
  | Ok u => String_ u = tts_address (QueryEscape text) (QueryEscape lang)
  | Err _ => False
  end.
Proof. rewrite tts_Ok. apply tts_url_String. Qed.

(** X6. Different inputs give different URLs: when [tts] answers the same for
    two pairs of text and language, the texts are equal and the languages
    are equal. *)
Theorem tts_injective (text lang text' lang' : string) :
  tts text lang = tts text' lang' -> text = text' /\ lang = lang'.
Proof.
  rewrite !tts_Ok. intros Heq.
  pose proof (f_equal (fun r => match r with
                                | Ok u => Query u
                                | Err _ => ∅
                                end) Heq) as Hmap.
  cbv beta iota in Hmap. unfold Query in Hmap.
  rewrite !tts_ParseQuery in Hmap. cbn [fst] in Hmap.
  pose proof (f_equal (fun m : Values => m !! "q") Hmap) as Hqv.
  pose proof (f_equal (fun m : Values => m !! "tl") Hmap) as Htl.
  cbn beta in Hqv, Htl.
  rewrite !(lookup_insert_ne _ "tl" "q") in Hqv by discriminate.
  rewrite !lookup_insert_eq in Hqv, Htl.
  split; congruence.
Qed.

(** X7. Whatever the inputs contain, the query of the URL parses without an
    error into exactly four parameters, each with one value: client=tw-ob,
    ie=UTF-8, q with the text and tl with the language. No byte of an input
    can end a parameter, start another or change a fixed one. *)
Theorem tts_query_has_four_parameters (text lang : string) :
  match tts text lang with
  | Ok u =>
      ParseQuery (RawQuery u)
      = (<["tl" := [lang]]> (<["q" := [text]]>
           (<["ie" := ["UTF-8"]]> (<["client" := ["tw-ob"]]> ∅))), None)
      /\ dom (Query u) = ({["client"; "ie"; "q"; "tl"]} : gset string)
  | Err _ => False
  end.
Proof.
  rewrite tts_Ok. split; [apply tts_ParseQuery|].
  unfold Query. rewrite tts_ParseQuery. cbn [fst].
  rewrite !dom_insert_L, dom_empty_L. set_solver.
Qed.

Lemma address_byte_of_query (c : ascii) :
  query_byte c = true -> address_byte c = true.
Proof. unfold address_byte, template_byte. now intros ->. Qed.

(** X8. The address [tts] produces is made of letters, digits and the
    bytes [- _ . ~ + % & = : / ?] only: it holds no space, no control byte,
    no quote, no [#] and no byte outside ASCII, whatever the inputs are. *)
Theorem tts_address_is_plain (text lang : string) :
  match tts text lang with
  | Ok u => all_bytes address_byte (String_ u) = true
  | Err _ => False
  end.
Proof.
  rewrite tts_Ok, tts_url_String. unfold tts_address.
  pose proof (all_bytes_weaken _ _ _ address_byte_of_query
                (QueryEscape_query_bytes text)) as Ht.
  pose proof (all_bytes_weaken _ _ _ address_byte_of_query
                (QueryEscape_query_bytes lang)) as Hl.
  rewrite (all_bytes_app _ _ (QueryEscape text ++ "&tl=" ++ QueryEscape lang)).
  rewrite (all_bytes_app _ (QueryEscape text)), Ht.
  rewrite (all_bytes_app _ "&tl="), Hl.
  reflexivity.
Qed.

End TtsFacts.

(** X6, instance. *)
Lemma tts_injective_witness :
  homecast.tts "hello" "en" = homecast.tts "hello" "en"
  /\ "hello" = "hello" /\ "en" = "en".
Proof.
  split; [reflexivity|].
  exact (tts_injective "hello" "en" "hello" "en" eq_refl).
Defined.

(** ** [Speak], from the text to the command *)

Section SpeakFacts.
Import strings url homecast.
Context {World : Type} `{Cast World}.

(** X5. [Speak] never stops at the resolver: for every text and language it
    goes on to the device. When the media-control handle is obtained it logs
    and issues exactly one load-media command, whose content id is the
    address of the template with the two inputs escaped, with content type
    audio/mp3, stream type BUFFERED, start position 0 and autoplay on, and it
    returns what the command answered; when the handle is not obtained it
    returns that error. *)
Theorem Speak_sends_the_address (g : CastDevice) (text lang : string)
    (st : Env World) :
  let address := tts_address (QueryEscape text) (QueryEscape lang) in
  let item :=
    {| ContentId := address; StreamType := "BUFFERED";
       ContentType := "audio/mp3"; MetaData := zero_MediaMetaData |} in
  let '(handle_err, w1) := client_Media (client g) (world st) in
  match handle_err with
  | Some e =>
      Speak g text lang st
      = (Some e, {| world := w1;
                    trace := trace st ++ [EvMedia (client g) (Some e)];
                    fresh := fresh st |})
  | None =>
      let '(err, w2) := media_LoadMedia (client g) item 0 true None w1 in
      Speak g text lang st
      = (err, {| world := w2;
                 trace := trace st
                          ++ [EvMedia (client g) None;
                              EvLog (LogLoadMedia address);
                              EvLoadMedia (client g) item 0 true None err];
                 fresh := fresh st |})
  end.
Proof.
  cbv zeta. unfold Speak. rewrite tts_Ok.
  unfold Play, bind, call, log, ret. rewrite tts_url_String.
  destruct (client_Media (client g) (world st)) as [[e|] w1]; cbn.
  - reflexivity.
  - destruct (media_LoadMedia _ _ _ _ _ w1) as [err w2]; cbn.
    now rewrite <- !app_assoc.
Qed.

End SpeakFacts.

(** ** Discovery: what the collector records *)

Section CollectorRecords.
Import strings url homecast.
Context {World : Type} `{Cast World}.

(** The errors of the attempts that were refused. *)
Definition refused (attempts : list (Client * option error)) : list error :=
  flat_map (fun a => match snd a with
                     | Some err => [err]
                     | None => []
                     end) attempts.

Lemma logged_failures_app (a b : list Event) :
  logged_failures (a ++ b) = (logged_failures a ++ logged_failures b)%list.
Proof. apply flat_map_app. Qed.

Lemma refused_app (a b : list (Client * option error)) :
  refused (a ++ b) = (refused a ++ refused b)%list.
Proof. apply flat_map_app. Qed.

Lemma collect_field_failures (e : mdns.ServiceEntry) (f : string)
    (st : Collector World) :
  logged_failures (trace (env (collect_field e f st)))
  = (logged_failures (trace (env st)) ++ refused (field_attempt e f st))%list.
Proof.
  unfold field_attempt.
  destruct (HasPrefix f googleHomeModelInfo) eqn:Hf.
  - rewrite collect_field_marker by exact Hf.
    destruct (client_Connect _ (world (env st))) as [[err|] w];
      cbn [env trace fst]; rewrite logged_failures_app; reflexivity.
  - rewrite collect_field_skip by exact Hf. cbn. now rewrite app_nil_r.
Qed.

Lemma collect_fields_failures (e : mdns.ServiceEntry) (fs : list string)
    (st : Collector World) :
  logged_failures (trace (env (collect_fields e fs st)))
  = (logged_failures (trace (env st)) ++ refused (fields_attempts e fs st))%list.
Proof.
  revert st. induction fs as [|f fs IH]; intros st.
  - cbn. now rewrite app_nil_r.
  - rewrite collect_fields_cons, IH, collect_field_failures.
    cbn [fields_attempts]. now rewrite refused_app, <- app_assoc.
Qed.

Lemma accepted_refused_length (e : mdns.ServiceEntry)
    (l : list (Client * option error)) :
  length (accepted e l) + length (refused l) = length l.
Proof.
  unfold accepted, refused.
  induction l as [|[c [err|]] l IH]; cbn in *; lia.
Qed.

(** X16. Every connection attempt made for an advertisement ends in exactly
    one of two ways: a device appended to [results], or a failure line in the
    log carrying the error of that attempt. The failures logged while the
    advertisement is handled are the errors of its refused attempts, in
    order, and devices and failures together are as many as the attempts. *)
Theorem every_attempt_is_a_device_or_a_logged_failure (e : mdns.ServiceEntry)
    (st : Collector World) :
  logged_failures (trace (env (collect_entry e st)))
  = (logged_failures (trace (env st)) ++ refused (entry_attempts e st))%list
  /\ results (collect_entry e st)
     = (results st ++ accepted e (entry_attempts e st))%list
  /\ length (accepted e (entry_attempts e st))
     + length (refused (entry_attempts e st))
     = length (marker_fields e).
Proof.
  split; [|split].
  - rewrite entry_attempts_fields. unfold collect_entry.
    rewrite collect_fields_failures. cbn [env log snd trace].
    rewrite logged_failures_app. cbn. now rewrite app_nil_r.
  - apply collect_entry_accepted.
  - rewrite accepted_refused_length. apply entry_attempts_length.
Qed.

(** The devices a pass appends come from its entries. *)
Lemma collect_appends (es : list mdns.ServiceEntry) (st : Collector World) :
  exists more, results (collect es st) = (results st ++ more)%list
               /\ Forall (fun d => In (ServiceEntry d) es) more.
Proof.
  revert st. induction es as [|e es IH]; intros st.
  - exists []. cbn. now rewrite app_nil_r.
  - rewrite collect_cons.
    destruct (IH (collect_entry e st)) as (more & -> & Hmore).
    rewrite collect_entry_accepted, <- app_assoc.
    eexists. split; [reflexivity|].
    apply Forall_app. split.
    + apply List.Forall_forall. intros d Hd. unfold accepted in Hd.
      apply in_flat_map in Hd as (a & _ & Hd).
      destruct (snd a); [contradiction|].
      destruct Hd as [<-|[]]. now left.
    + eapply List.Forall_impl; [|exact Hmore]. intros d Hd. now right.
Qed.

(** X15. The order of [results] is the order of arrival: the devices of the
    advertisements received first stay at the front, untouched, and those of
    the advertisements received later follow them; no sorting, no
    de-duplication and no removal takes place. *)
Theorem results_follow_arrival (first later : list mdns.ServiceEntry)
    (st : Collector World) :
  exists more,
    results (collect (first ++ later) st)
    = (results (collect first st) ++ more)%list
    /\ Forall (fun d => In (ServiceEntry d) later) more.
Proof. rewrite collect_app. apply collect_appends. Qed.

End CollectorRecords.

(** ** Discovery: what holds of the trace and of the devices in every run *)

Section RunRecords.
Import strings url homecast.
Context {World : Type} `{Cast World}.

(** What a run keeps true of the shared variables: the trace holds events of
    discovery only; the clients made have the identities 0, 1, 2, ... in
    order, and each was connected once, right after it was made; every
    device in [results] has a client of this run, made for the address of its
    entry, whose connection was accepted; and no two devices share a
    client. *)
Record records_inv (st : Collector World) : Prop := {
  rec_events : Forall (fun ev => discovery_event ev = true) (trace (env st));
  rec_ids : map id (new_clients (trace (env st))) = seq 0 (fresh (env st));
  rec_connected : new_clients (trace (env st))
                  = map fst (connect_attempts (trace (env st)));
  rec_devices : forall d, In d (results st) ->
      In (EvNewClient (client d)) (trace (env st))
      /\ In (EvConnect (client d) None) (trace (env st))
      /\ host (client d) = AddrV4 (ServiceEntry d)
      /\ port (client d) = Port (ServiceEntry d)
      /\ id (client d) < fresh (env st);
  rec_distinct : List.NoDup (map (fun d => id (client d)) (results st));
  rec_count : length (results st) + length (logged_failures (trace (env st)))
              = length (connect_attempts (trace (env st)))
}.

Lemma new_clients_app (a b : list Event) :
  new_clients (a ++ b) = (new_clients a ++ new_clients b)%list.
Proof. apply flat_map_app. Qed.

(** Recording an event that is a log line, the lookup or the close keeps
    all of it. *)
Lemma record_records_inv (ev : Event) (st : Collector World) :
  discovery_event ev = true -> session_event ev = false ->
  logged_failures [ev] = [] ->
  records_inv st -> records_inv (record ev st).
Proof.
  intros Hev Hs Hlog [Hevents Hids Hconn Hdev Hdup Hcount].
  constructor; cbn [record env trace fresh results].
  - apply Forall_app. split; [exact Hevents | now constructor].
  - rewrite new_clients_app. destruct ev; try discriminate Hs; cbn;
      now rewrite app_nil_r.
  - rewrite new_clients_app, connect_attempts_app, map_app.
    destruct ev; try discriminate Hs; cbn; now rewrite Hconn.
  - intros d Hd. destruct (Hdev d Hd) as (H1 & H2 & H3 & H4 & H5).
    repeat split; try assumption; apply in_or_app; now left.
  - exact Hdup.
  - rewrite logged_failures_app, connect_attempts_app, Hlog, app_nil_r.
    destruct ev; try discriminate Hs; cbn; rewrite app_nil_r; exact Hcount.
Qed.

Lemma collect_field_records_inv (e : mdns.ServiceEntry) (f : string)
    (st : Collector World) :
  records_inv st -> records_inv (collect_field e f st).
Proof.
  intros [Hevents Hids Hconn Hdev Hdup Hcount].
  destruct (HasPrefix f googleHomeModelInfo) eqn:Hf;
    [|rewrite collect_field_skip by exact Hf; now constructor].
  rewrite collect_field_marker by exact Hf.
  assert (Hold : forall d, In d (results st) ->
            forall more,
              In (EvNewClient (client d)) (trace (env st) ++ more)
              /\ In (EvConnect (client d) None) (trace (env st) ++ more)
              /\ host (client d) = AddrV4 (ServiceEntry d)
              /\ port (client d) = Port (ServiceEntry d)
              /\ id (client d) < S (fresh (env st))).
  { intros d Hd more. destruct (Hdev d Hd) as (H1 & H2 & H3 & H4 & H5).
    repeat split; try assumption; try lia; apply in_or_app; now left. }
  destruct (client_Connect _ (world (env st))) as [[err|] w];
    constructor; cbn [env trace fresh results].
  - apply Forall_app. split; [exact Hevents | repeat constructor].
  - now rewrite new_clients_app, map_app, Hids, seq_S.
  - rewrite new_clients_app, connect_attempts_app, map_app, Hconn. reflexivity.
  - intros d Hd. now apply Hold.
  - exact Hdup.
  - rewrite logged_failures_app, connect_attempts_app, !length_app. cbn. lia.
  - apply Forall_app. split; [exact Hevents | repeat constructor].
  - now rewrite new_clients_app, map_app, Hids, seq_S.
  - rewrite new_clients_app, connect_attempts_app, map_app, Hconn. reflexivity.
  - intros d Hd. apply in_app_or in Hd as [Hd|[<-|[]]]; [now apply Hold|].
    cbn [device_of client ServiceEntry id host port].
    repeat split; try lia; apply in_or_app; right; cbn; auto.
  - rewrite map_app. cbn [map device_of client id].
    apply List.NoDup_app; [exact Hdup | repeat constructor; intros [] |].
    intros x Hx [<-|[]]. apply in_map_iff in Hx as (d & Hid & Hd).
    destruct (Hdev d Hd) as (_ & _ & _ & _ & Hlt). lia.
  - rewrite logged_failures_app, connect_attempts_app, !length_app. cbn. lia.
Qed.

(** The invariant of the shared variables, along the steps of both
    threads. *)
Lemma step_records_inv (t : Thread) (s s' : Sys World) :
  records_inv (shared s) -> step t s = Some s' -> records_inv (shared s').
Proof.
  intros Hinv. destruct t; cbn.
  - unfold step_main. destruct (main_pc s) as [|err| | |r].
    + destruct (lookup_pending s).
      * intros [= <-]. cbn. now apply record_records_inv.
      * destruct (length (entriesCh s) <? entriesCh_cap)%nat; [|discriminate].
        now intros [= <-].
    + intros [= <-]. cbn. destruct err; [now apply record_records_inv | exact Hinv].
    + destruct (entriesCh_closed s); [discriminate|].
      intros [= <-]. cbn. now apply record_records_inv.
    + now intros [= <-].
    + discriminate.
  - unfold step_collector. destruct (collector_pc s) as [|e [|f fs]|].
    + destruct (entriesCh s).
      * destruct (entriesCh_closed s); [|discriminate]. now intros [= <-].
      * intros [= <-]. cbn. now apply record_records_inv.
    + now intros [= <-].
    + intros [= <-]. cbn. now apply collect_field_records_inv.
    + discriminate.
Qed.

Lemma run_records_inv (schedule : list Thread) (s s' : Sys World) :
  records_inv (shared s) -> run schedule s = Some s' -> records_inv (shared s').
Proof.
  revert s. induction schedule as [|t schedule IH]; intros s Hinv; cbn.
  - now intros [= <-].
  - destruct (step t s) as [s1|] eqn:Hstep; [|discriminate].
    apply IH. eapply step_records_inv; eassumption.
Qed.

Lemma records_inv_start (w : World) (pending : list mdns.ServiceEntry)
    (err : option error) :
  records_inv (shared (LookupAndConnect w pending err)).
Proof.
  constructor; cbn;
    [constructor | reflexivity | reflexivity | intros x [] | constructor
    | reflexivity].
Qed.

End RunRecords.

Section RunFacts.
Import strings url homecast.
Context {World : Type} `{Cast World}.

(** X9. In every run of the call the channel is closed at most once: the
    trace holds no close while the function is at or before
    [close(entriesCh)] and exactly one from then on, the channel is closed
    exactly when that one close is in the trace, the close never finds the
    channel already closed, and nothing is sent after it. *)
Theorem channel_is_closed_once (w : World) (pending : list mdns.ServiceEntry)
    (err : option error) (schedule : list Thread) (s : Sys World) :
  run schedule (LookupAndConnect w pending err) = Some s ->
  close_count (trace (env (shared s))) <= 1
  /\ (entriesCh_closed s = true <-> close_count (trace (env (shared s))) = 1)
  /\ (forall r, main_pc s = Returned r ->
                close_count (trace (env (shared s))) = 1)
  /\ (main_pc s = AtClose -> exists s', step Main s = Some s')
  /\ (entriesCh_closed s = true -> main_pc s <> AtLookup).
Proof.
  intros Hrun.
  destruct (run_inv _ _ _ (sys_inv_start w pending err) Hrun)
    as [_ _ _ Hcl Hcnt _].
  rewrite Hcl, Hcnt.
  destruct (main_pc s) as [|e| | |r] eqn:Hpc; cbn;
    (split; [lia|]); (split; [split; (discriminate || reflexivity || lia)|]);
    (split; [intros r' Hr; (discriminate Hr || reflexivity)|]);
    (split; [|discriminate]); try discriminate.
  intros _. unfold step_main. rewrite Hpc. cbn in Hcl. rewrite Hcl.
  eexists. reflexivity.
Qed.

(** X10. In every run, each device the call returns was really connected:
    its entry has a field that begins with the marker, its client was made
    in this run for the address and the port of that entry, and the trace
    holds the connection of that client, answered without an error. *)
Theorem returned_devices_are_connected (w : World)
    (pending : list mdns.ServiceEntry) (err : option error)
    (schedule : list Thread) (s : Sys World) :
  run schedule (LookupAndConnect w pending err) = Some s ->
  forall r, main_pc s = Returned r ->
  forall d, In d r ->
    qualifies (ServiceEntry d)
    /\ host (client d) = AddrV4 (ServiceEntry d)
    /\ port (client d) = Port (ServiceEntry d)
    /\ In (EvNewClient (client d)) (trace (env (shared s)))
    /\ In (EvConnect (client d) None) (trace (env (shared s))).
Proof.
  intros Hrun r Hr d Hd.
  destruct (run_inv _ _ _ (sys_inv_start w pending err) Hrun)
    as [Hres Hret _ _ _ _].
  destruct (run_records_inv _ _ _ (records_inv_start w pending err) Hrun)
    as [_ _ _ Hdev _ _].
  assert (Hin : In d (results (shared s)))
    by (eapply extends_In; [apply Hret|]; eassumption).
  destruct (Hres d Hin) as (Hq & _).
  destruct (Hdev d Hin) as (H1 & H2 & H3 & H4 & _).
  repeat split; assumption.
Qed.

Lemma NoDup_map_prefix {A B : Type} (f : A -> B) (a b : list A) :
  extends a b -> List.NoDup (map f b) -> List.NoDup (map f a).
Proof.
  intros [more ->]. rewrite map_app. apply NoDup_app_remove_r.
Qed.

(** X11. In every run no two devices share a client: the clients of the
    devices in [results] are pairwise different, and so are the clients of
    the devices the call returns, also when several devices come from one
    advertisement. *)
Theorem devices_have_their_own_clients (w : World)
    (pending : list mdns.ServiceEntry) (err : option error)
    (schedule : list Thread) (s : Sys World) :
  run schedule (LookupAndConnect w pending err) = Some s ->
  List.NoDup (map client (results (shared s)))
  /\ (forall r, main_pc s = Returned r -> List.NoDup (map client r)).
Proof.
  intros Hrun.
  destruct (run_inv _ _ _ (sys_inv_start w pending err) Hrun)
    as [_ Hret _ _ _ _].
  destruct (run_records_inv _ _ _ (records_inv_start w pending err) Hrun)
    as [_ _ _ _ Hdup _].
  assert (Hall : List.NoDup (map client (results (shared s)))).
  { apply (NoDup_map_inv id). now rewrite map_map. }
  split; [exact Hall|].
  intros r Hr. eapply NoDup_map_prefix; [apply Hret, Hr | exact Hall].
Qed.

(** X12. Discovery closes nothing and plays nothing: in every run the trace
    holds log lines, clients made, connections, the lookup and the close of
    the channel, and no other event. In particular a client whose connection
    was refused is dropped without being closed, and closing the devices
    returned is left to the caller. *)
Theorem discovery_closes_nothing (w : World) (pending : list mdns.ServiceEntry)
    (err : option error) (schedule : list Thread) (s : Sys World) :
  run schedule (LookupAndConnect w pending err) = Some s ->
  Forall (fun ev => discovery_event ev = true) (trace (env (shared s)))
  /\ (forall c, ~ In (EvClose c) (trace (env (shared s))))
  /\ (forall c e, ~ In (EvMedia c e) (trace (env (shared s)))).
Proof.
  intros Hrun.
  destruct (run_records_inv _ _ _ (records_inv_start w pending err) Hrun)
    as [Hev _ _ _ _ _].
  split; [exact Hev|].
  rewrite List.Forall_forall in Hev.
  split; intros; intros Hin; apply Hev in Hin; discriminate Hin.
Qed.

(** X13. In every run each client made is connected exactly once, right
    after it is made: the clients made are, in order, the clients of the
    connection attempts. Client identities are handed out in order and never
    reused. And every attempt is accounted for: the devices in [results] and
    the connection failures logged are together as many as the attempts. *)
Theorem every_client_is_connected_once (w : World)
    (pending : list mdns.ServiceEntry) (err : option error)
    (schedule : list Thread) (s : Sys World) :
  run schedule (LookupAndConnect w pending err) = Some s ->
  new_clients (trace (env (shared s)))
  = map fst (connect_attempts (trace (env (shared s))))
  /\ map id (new_clients (trace (env (shared s))))
     = seq 0 (fresh (env (shared s)))
  /\ List.NoDup (new_clients (trace (env (shared s))))
  /\ length (results (shared s))
     + length (logged_failures (trace (env (shared s))))
     = length (connect_attempts (trace (env (shared s)))).
Proof.
  intros Hrun.
  destruct (run_records_inv _ _ _ (records_inv_start w pending err) Hrun)
    as [_ Hids Hconn _ _ Hcount].
  repeat split; try assumption.
  apply (NoDup_map_inv id). rewrite Hids. apply seq_NoDup.
Qed.

End RunFacts.

(** ** Discovery: progress, termination, and what the schedule can change *)

Section ScheduleFacts.
Import strings url homecast.
Context {World : Type} `{Cast World}.

(** The steps one advertisement costs the goroutine: the receive, one step
    for each of its fields, and the end of the inner loop. *)
Definition entry_steps (e : mdns.ServiceEntry) : nat := 2 + length (InfoFields e).

Definition entries_steps (es : list mdns.ServiceEntry) : nat :=
  list_sum (map entry_steps es).

(** The steps the function has still to make: one send for each entry the
    lookup has to deliver, the return of the lookup, the check of the error,
    the close and the return. *)
Definition main_steps (s : Sys World) : nat :=
  match main_pc s with
  | AtLookup => 4 + length (lookup_pending s)
  | AtErrCheck _ => 3
  | AtClose => 2
  | AtReturn => 1
  | Returned _ => 0
  end.

(** The steps the goroutine has still to make: the rest of the entry it is
    at, every entry not yet received, and the end of the range loop. *)
Definition collector_steps (s : Sys World) : nat :=
  match collector_pc s with
  | AtRange => 1
  | AtFields _ fields => 2 + length fields
  | Exited => 0
  end + entries_steps (entriesCh s ++ lookup_pending s).

Definition steps_left (s : Sys World) : nat := main_steps s + collector_steps s.

(** The call is over: the function has returned and the goroutine has left
    its loop. *)
Definition finished (s : Sys World) : Prop :=
  (exists r, main_pc s = Returned r) /\ collector_pc s = Exited.

(** How the lookup, the channel and the two program counters hang together:
    nothing is pending once the lookup has returned, the channel is closed
    only after that, and the goroutine leaves its loop only on a channel
    that is closed and empty. *)
Record flow_inv (s : Sys World) : Prop := {
  flow_pending : main_pc s <> AtLookup -> lookup_pending s = [];
  flow_exited : collector_pc s = Exited ->
                entriesCh s = [] /\ entriesCh_closed s = true;
  flow_closed : entriesCh_closed s = true -> main_pc s <> AtLookup
}.

(** What of the shared variables the collector reads: the world, the next
    client identity and [results]; the trace is only written. *)
Definition core (st : Collector World) : World * nat * list CastDevice :=
  (world (env st), fresh (env st), results st).

(** The shared variables as they will be when the goroutine has handled all
    that is still to come: the rest of the entry it is at, the entries in the
    channel and the entries the lookup has still to deliver. *)
Definition outstanding (s : Sys World) : Collector World :=
  match collector_pc s with
  | AtRange => collect (entriesCh s ++ lookup_pending s) (shared s)
  | AtFields e fields =>
      collect (entriesCh s ++ lookup_pending s) (collect_fields e fields (shared s))
  | Exited => shared s
  end.

Lemma entries_steps_app (a b : list mdns.ServiceEntry) :
  entries_steps (a ++ b) = entries_steps a + entries_steps b.
Proof. unfold entries_steps. now rewrite map_app, list_sum_app. Qed.

Lemma entries_steps_cons (e : mdns.ServiceEntry) (es : list mdns.ServiceEntry) :
  entries_steps (e :: es) = entry_steps e + entries_steps es.
Proof. reflexivity. Qed.

(** Every step of either thread is one step less to go. *)
Lemma step_steps_left (t : Thread) (s s' : Sys World) :
  step t s = Some s' -> steps_left s = S (steps_left s').
Proof.
  unfold steps_left, main_steps, collector_steps. destruct t; cbn [step].
  - unfold step_main. destruct (main_pc s) as [|err| | |r] eqn:Hpc.
    + destruct (lookup_pending s) as [|e p] eqn:Hp.
      * intros [= <-]. cbn [main_pc lookup_pending entriesCh collector_pc length].
        lia.
      * destruct (length (entriesCh s) <? entriesCh_cap)%nat; [|discriminate].
        intros [= <-]. cbn [main_pc lookup_pending entriesCh collector_pc length].
        rewrite <- app_assoc. cbn [app]. lia.
    + intros [= <-]. cbn [main_pc lookup_pending entriesCh collector_pc]. lia.
    + destruct (entriesCh_closed s); [discriminate|].
      intros [= <-]. cbn [main_pc lookup_pending entriesCh collector_pc]. lia.
    + intros [= <-]. cbn [main_pc lookup_pending entriesCh collector_pc]. lia.
    + discriminate.
  - unfold step_collector. destruct (collector_pc s) as [|e [|f fs]|] eqn:Hpc.
    + destruct (entriesCh s) as [|entry buffer] eqn:Hch.
      * destruct (entriesCh_closed s); [|discriminate].
        intros [= <-].
        cbn [set_collector main_pc lookup_pending entriesCh collector_pc]. lia.
      * intros [= <-].
        cbn [set_collector main_pc lookup_pending entriesCh collector_pc].
        rewrite <- !app_comm_cons, entries_steps_cons. unfold entry_steps at 1.
        lia.
    + intros [= <-].
      cbn [set_collector main_pc lookup_pending entriesCh collector_pc length].
      lia.
    + intros [= <-].
      cbn [set_collector main_pc lookup_pending entriesCh collector_pc length].
      lia.
    + discriminate.
Qed.

Lemma run_steps_left (schedule : list Thread) (s s' : Sys World) :
  run schedule s = Some s' -> steps_left s = length schedule + steps_left s'.
Proof.
  revert s. induction schedule as [|t schedule IH]; intros s; cbn.
  - now intros [= <-].
  - destruct (step t s) as [s1|] eqn:Hstep; [|discriminate].
    intros Hrun. rewrite (step_steps_left _ _ _ Hstep), (IH _ Hrun). reflexivity.
Qed.

Lemma flow_inv_start (w : World) (pending : list mdns.ServiceEntry)
    (err : option error) :
  flow_inv (LookupAndConnect w pending err).
Proof. constructor; cbn; congruence. Qed.

Lemma step_flow_inv (t : Thread) (s s' : Sys World) :
  flow_inv s -> step t s = Some s' -> flow_inv s'.
Proof.
  intros [Hp Hx Hc]. destruct t; cbn [step].
  - unfold step_main. destruct (main_pc s) as [|err| | |r] eqn:Hpc.
    + destruct (lookup_pending s) as [|e p] eqn:Hpend.
      * intros [= <-]. constructor; cbn; auto; discriminate.
      * destruct (length (entriesCh s) <? entriesCh_cap)%nat; [|discriminate].
        intros [= <-]. constructor; cbn.
        -- intros Hn. now elim Hn.
        -- intros Hex. destruct (Hx Hex) as [_ Hcl]. elim (Hc Hcl eq_refl).
        -- intros Hcl. elim (Hc Hcl eq_refl).
    + intros [= <-]. constructor; cbn; auto; try discriminate;
        intros _; apply Hp; discriminate.
    + destruct (entriesCh_closed s) eqn:Hcl; [discriminate|].
      intros [= <-]. constructor; cbn; try discriminate.
      * intros _. apply Hp. discriminate.
      * intros Hex. destruct (Hx Hex) as [_ Hcl']. discriminate Hcl'.
    + intros [= <-]. constructor; cbn; auto; try discriminate;
        intros _; apply Hp; discriminate.
    + discriminate.
  - unfold step_collector. destruct (collector_pc s) as [|e [|f fs]|] eqn:Hpc.
    + destruct (entriesCh s) as [|entry buffer] eqn:Hch.
      * destruct (entriesCh_closed s) eqn:Hcl; [|discriminate].
        intros [= <-]. constructor; cbn; auto; rewrite ?Hcl; auto.
      * intros [= <-]. constructor; cbn; auto; discriminate.
    + intros [= <-]. constructor; cbn; auto; discriminate.
    + intros [= <-]. constructor; cbn; auto; discriminate.
    + discriminate.
Qed.

(** The collector reads the world, the next identity and [results] only:
    two states that agree on these agree on them after a field, an entry, a
    pass. *)
Lemma collect_field_core (e : mdns.ServiceEntry) (f : string)
    (a b : Collector World) :
  core a = core b -> core (collect_field e f a) = core (collect_field e f b).
Proof.
  unfold core. intros [= Hw Hf Hr]. unfold collect_field, NewClient, call, log.
  destruct (HasPrefix f googleHomeModelInfo); [|congruence].
  cbn. rewrite Hw, Hf.
  destruct (client_Connect _ (world (env b))) as [[err|] w]; cbn; congruence.
Qed.

Lemma collect_fields_core (e : mdns.ServiceEntry) (fs : list string)
    (a b : Collector World) :
  core a = core b -> core (collect_fields e fs a) = core (collect_fields e fs b).
Proof.
  revert a b. induction fs as [|f fs IH]; intros a b Hab; [exact Hab|].
  rewrite !collect_fields_cons. apply IH. now apply collect_field_core.
Qed.

Lemma collect_entry_core (e : mdns.ServiceEntry) (a b : Collector World) :
  core a = core b -> core (collect_entry e a) = core (collect_entry e b).
Proof.
  intros Hab. unfold collect_entry. apply collect_fields_core.
  unfold core in *. cbn. exact Hab.
Qed.

Lemma collect_core (es : list mdns.ServiceEntry) (a b : Collector World) :
  core a = core b -> core (collect es a) = core (collect es b).
Proof.
  revert a b. induction es as [|e es IH]; intros a b Hab; [exact Hab|].
  rewrite !collect_cons. apply IH. now apply collect_entry_core.
Qed.

(** No step of either thread changes what the shared variables will be, the
    trace apart, when all is handled. *)
Lemma step_outstanding (t : Thread) (s s' : Sys World) :
  flow_inv s -> step t s = Some s' -> core (outstanding s') = core (outstanding s).
Proof.
  intros [Hp Hx Hc]. destruct t; cbn [step].
  - unfold step_main. destruct (main_pc s) as [|err| | |r] eqn:Hpc.
    + destruct (lookup_pending s) as [|e p] eqn:Hpend.
      * intros [= <-]. unfold outstanding. cbn. rewrite Hpend.
        destruct (collector_pc s);
          [apply collect_core | apply collect_core, collect_fields_core |];
          reflexivity.
      * destruct (length (entriesCh s) <? entriesCh_cap)%nat; [|discriminate].
        intros [= <-]. unfold outstanding. cbn. rewrite Hpend, <- app_assoc.
        reflexivity.
    + intros [= <-]. unfold outstanding. cbn.
      destruct err; [|reflexivity].
      destruct (collector_pc s);
        [apply collect_core | apply collect_core, collect_fields_core |];
        reflexivity.
    + destruct (entriesCh_closed s); [discriminate|].
      intros [= <-]. unfold outstanding. cbn.
      destruct (collector_pc s);
        [apply collect_core | apply collect_core, collect_fields_core |];
        reflexivity.
    + now intros [= <-].
    + discriminate.
  - unfold step_collector. destruct (collector_pc s) as [|e [|f fs]|] eqn:Hpc.
    + destruct (entriesCh s) as [|entry buffer] eqn:Hch.
      * destruct (entriesCh_closed s) eqn:Hcl; [|discriminate].
        intros [= <-]. unfold outstanding. cbn. rewrite Hpc, Hch.
        rewrite (Hp (Hc eq_refl)). reflexivity.
      * intros [= <-]. unfold outstanding. cbn. rewrite Hpc, Hch. reflexivity.
    + intros [= <-]. unfold outstanding. cbn. rewrite Hpc. reflexivity.
    + intros [= <-]. unfold outstanding. cbn. rewrite Hpc. reflexivity.
    + discriminate.
Qed.

Lemma run_flow (schedule : list Thread) (s s' : Sys World) :
  flow_inv s -> run schedule s = Some s' ->
  flow_inv s' /\ core (outstanding s') = core (outstanding s).
Proof.
  revert s. induction schedule as [|t schedule IH]; intros s Hinv; cbn.
  - intros [= <-]. now split.
  - destruct (step t s) as [s1|] eqn:Hstep; [|discriminate].
    intros Hrun.
    destruct (IH s1 (step_flow_inv _ _ _ Hinv Hstep) Hrun) as [Hinv' Hcore].
    split; [exact Hinv'|].
    rewrite Hcore. eapply step_outstanding; eassumption.
Qed.

(** What is in [results] stays at the front of what will be there. *)
Lemma results_outstanding (s : Sys World) :
  extends (results (shared s)) (results (outstanding s)).
Proof.
  unfold outstanding. destruct (collector_pc s) as [|e fs|].
  - apply collect_grows.
  - eapply extends_trans; [apply collect_fields_grows | apply collect_grows].
  - apply extends_refl.
Qed.

(** When the function cannot move, it has returned, or it is inside the
    lookup with a full channel. *)
Lemma main_blocked (s : Sys World) :
  sys_inv s -> step Main s = None ->
  (exists r, main_pc s = Returned r)
  \/ (main_pc s = AtLookup /\ lookup_pending s <> []
      /\ length (entriesCh s) = entriesCh_cap).
Proof.
  intros [_ _ _ Hcl _ Hb]. cbn. unfold step_main.
  destruct (main_pc s) as [|err| | |r] eqn:Hpc; cbn in Hcl;
    rewrite ?Hcl; try discriminate.
  - destruct (lookup_pending s) as [|e p]; [discriminate|].
    destruct (length (entriesCh s) <? entriesCh_cap)%nat eqn:Hlt; [discriminate|].
    intros _. right. apply Nat.ltb_ge in Hlt.
    repeat split; [discriminate | lia].
  - intros _. left. now exists r.
Qed.

(** When the goroutine cannot move, it has left its loop, or it waits on an
    empty channel that is still open. *)
Lemma collector_blocked (s : Sys World) :
  step Goroutine s = None ->
  collector_pc s = Exited
  \/ (collector_pc s = AtRange /\ entriesCh s = [] /\ entriesCh_closed s = false).
Proof.
  cbn. unfold step_collector.
  destruct (collector_pc s) as [|e [|f fs]|]; try discriminate; [|now left].
  destruct (entriesCh s); [|discriminate].
  destruct (entriesCh_closed s); [discriminate|]. intros _. now right.
Qed.

(** Progress: a call that is not over has a thread that can move. *)
Lemma progress (s : Sys World) :
  sys_inv s -> flow_inv s ->
  finished s \/ exists t s', step t s = Some s'.
Proof.
  intros Hinv Hflow.
  destruct (step Main s) as [s'|] eqn:Hmain; [right; now exists Main, s'|].
  destruct (step Goroutine s) as [s'|] eqn:Hcoll; [right; now exists Goroutine, s'|].
  left. destruct (main_blocked s Hinv Hmain) as [Hret|(Hpc & _ & Hfull)].
  - split; [exact Hret|].
    destruct (collector_blocked s Hcoll) as [Hex|(_ & _ & Hopen)]; [exact Hex|].
    destruct Hret as [r Hr]. destruct Hinv as [_ _ _ Hcl _ _].
    rewrite Hr, Hopen in Hcl. discriminate.
  - destruct (collector_blocked s Hcoll) as [Hex|(_ & Hempty & _)].
    + destruct (flow_exited s Hflow Hex) as [Hempty _].
      rewrite Hempty in Hfull. discriminate.
    + rewrite Hempty in Hfull. discriminate.
Qed.

Lemma finished_steps_left (s : Sys World) :
  flow_inv s -> (finished s <-> steps_left s = 0).
Proof.
  intros [Hp Hx _]. unfold finished, steps_left, main_steps, collector_steps.
  split.
  - intros [[r Hr] Hex]. destruct (Hx Hex) as [Hch _].
    rewrite Hr, Hex, Hch, Hp by (rewrite Hr; discriminate). reflexivity.
  - intros Hzero.
    destruct (main_pc s) as [|err| | |r]; try (cbn in Hzero; lia).
    destruct (collector_pc s); try (cbn in Hzero; lia).
    split; [now exists r | reflexivity].
Qed.

(** Every state a call can be in has a way to the end. *)
Lemma completion (n : nat) (s : Sys World) :
  steps_left s = n -> sys_inv s -> flow_inv s ->
  exists rest s', run rest s = Some s' /\ finished s' /\ length rest = n.
Proof.
  revert s. induction n as [|n IH]; intros s Hn Hinv Hflow.
  - exists [], s. split; [reflexivity|]. split; [|reflexivity].
    now apply finished_steps_left.
  - destruct (progress s Hinv Hflow) as [Hfin|(t & s1 & Hstep)].
    + apply finished_steps_left in Hfin; [lia | exact Hflow].
    + destruct (IH s1) as (rest & s' & Hrun & Hfin & Hlen).
      * apply step_steps_left in Hstep. lia.
      * eapply (run_inv [t]); [exact Hinv|]. cbn. now rewrite Hstep.
      * eapply step_flow_inv; eassumption.
      * exists (t :: rest), s'. cbn. rewrite Hstep.
        split; [exact Hrun|]. split; [exact Hfin | now rewrite Hlen].
Qed.

(** The function, scheduled alone, sends what fits into the channel. *)
Lemma main_sends (es : list mdns.ServiceEntry) (s : Sys World) :
  main_pc s = AtLookup -> lookup_pending s = es ->
  length (entriesCh s) + length es <= entriesCh_cap ->
  run (repeat Main (length es)) s
  = Some {| lookup_pending := []; lookup_err := lookup_err s;
            entriesCh := entriesCh s ++ es;
            entriesCh_closed := entriesCh_closed s;
            main_pc := AtLookup; collector_pc := collector_pc s;
            shared := shared s |}.
Proof.
  revert s. induction es as [|e es IH]; intros s Hpc Hpend Hroom.
  - cbn. rewrite app_nil_r, <- Hpc, <- Hpend. now destruct s.
  - cbn [length repeat run step]. unfold step_main at 1. rewrite Hpc, Hpend.
    cbn [length] in Hroom.
    destruct (length (entriesCh s) <? entriesCh_cap)%nat eqn:Hlt;
      [|apply Nat.ltb_ge in Hlt; lia].
    rewrite IH; cbn [main_pc lookup_pending entriesCh]; try reflexivity.
    + cbn [lookup_err entriesCh_closed collector_pc shared].
      now rewrite <- app_assoc.
    + rewrite length_app. cbn. lia.
Qed.

(** X14. The function can return before its goroutine has made a step:
    whatever the advertisements, as long as they fit into the channel, the
    schedule in which the function runs alone takes it through the lookup,
    the check, the close and the return, and it returns an empty slice with
    every advertisement still in the closed channel, not one of them
    received. *)
Theorem return_can_be_empty (w : World) (pending : list mdns.ServiceEntry)
    (err : option error) :
  length pending <= entriesCh_cap ->
  exists s,
    run (repeat Main (length pending + 4)) (LookupAndConnect w pending err) = Some s
    /\ main_pc s = Returned []
    /\ entriesCh s = pending
    /\ entriesCh_closed s = true
    /\ collector_pc s = AtRange
    /\ results (shared s) = []
    /\ connect_attempts (trace (env (shared s))) = [].
Proof.
  intros Hroom. rewrite repeat_app, run_app.
  rewrite (main_sends pending) by (cbn; reflexivity || lia).
  eexists. cbn. split; [reflexivity|].
  destruct err; repeat split.
Qed.

(** X17. A call never deadlocks. In every run, the only state in which
    neither thread can move is the one in which the function has returned
    and the goroutine has left its loop. The function is blocked only inside
    the lookup, on a full channel, and then the goroutine can move; the
    goroutine is blocked only on an empty channel that is still open, and
    then the function can move. *)
Theorem discovery_never_deadlocks (w : World) (pending : list mdns.ServiceEntry)
    (err : option error) (schedule : list Thread) (s : Sys World) :
  run schedule (LookupAndConnect w pending err) = Some s ->
  ((forall t, step t s = None) <-> finished s)
  /\ (step Main s = None ->
      (exists r, main_pc s = Returned r)
      \/ (main_pc s = AtLookup /\ length (entriesCh s) = entriesCh_cap
          /\ exists s', step Goroutine s = Some s'))
  /\ (step Goroutine s = None ->
      collector_pc s = Exited
      \/ (collector_pc s = AtRange /\ entriesCh s = []
          /\ exists s', step Main s = Some s')).
Proof.
  intros Hrun.
  pose proof (run_inv _ _ _ (sys_inv_start w pending err) Hrun) as Hinv.
  destruct (run_flow _ _ _ (flow_inv_start w pending err) Hrun) as [Hflow _].
  split; [split|split].
  - intros Hnone. destruct (progress s Hinv Hflow) as [Hfin|(t & s' & Hstep)];
      [exact Hfin | now rewrite Hnone in Hstep].
  - intros [[r Hr] Hex] [|]; cbn.
    + unfold step_main. now rewrite Hr.
    + unfold step_collector. now rewrite Hex.
  - intros Hmain.
    destruct (main_blocked s Hinv Hmain) as [Hret|(Hpc & _ & Hfull)];
      [now left | right].
    split; [exact Hpc|]. split; [exact Hfull|].
    destruct (step Goroutine s) as [s'|] eqn:Hcoll; [now exists s'|].
    destruct (collector_blocked s Hcoll) as [Hex|(_ & Hempty & _)].
    + destruct (flow_exited s Hflow Hex) as [Hempty _].
      rewrite Hempty in Hfull. discriminate.
    + rewrite Hempty in Hfull. discriminate.
  - intros Hcoll.
    destruct (collector_blocked s Hcoll) as [Hex|(Hpc & Hempty & Hopen)];
      [now left | right].
    split; [exact Hpc|]. split; [exact Hempty|].
    destruct (step Main s) as [s'|] eqn:Hmain; [now exists s'|].
    destruct (main_blocked s Hinv Hmain) as [[r Hr]|(_ & _ & Hfull)].
    + destruct Hinv as [_ _ _ Hcl _ _]. rewrite Hr, Hopen in Hcl. discriminate.
    + rewrite Hempty in Hfull. discriminate.
Qed.

(** X18. A call terminates, whatever the schedule: no run is longer than
    five steps (the return of the lookup, the check, the close, the return,
    and the end of the range loop), one send for each advertisement, and for
    each advertisement its receive, one step for each of its fields and the
    end of the inner loop. A run has exactly that length when, and only when,
    the function has returned and the goroutine has left its loop. *)
Theorem discovery_terminates (w : World) (pending : list mdns.ServiceEntry)
    (err : option error) (schedule : list Thread) (s : Sys World) :
  run schedule (LookupAndConnect w pending err) = Some s ->
  length schedule <= 5 + length pending + entries_steps pending
  /\ (length schedule = 5 + length pending + entries_steps pending
      <-> finished s).
Proof.
  intros Hrun.
  destruct (run_flow _ _ _ (flow_inv_start w pending err) Hrun) as [Hflow _].
  pose proof (run_steps_left _ _ _ Hrun) as Hlen.
  assert (Hstart : steps_left (LookupAndConnect w pending err)
                   = 5 + length pending + entries_steps pending).
  { unfold steps_left, main_steps, collector_steps.
    cbn [LookupAndConnect main_pc collector_pc entriesCh lookup_pending app].
    lia. }
  rewrite Hstart in Hlen.
  split; [lia|]. rewrite (finished_steps_left s Hflow). lia.
Qed.

(** X19. The schedule decides how much of the result the caller gets, and
    nothing else. In every run, [results] is a beginning of the list that
    the collector loop makes of all the advertisements in the order of their
    delivery, so is the slice the function returns, and when the goroutine
    has left its loop [results], the world and the next client identity are
    those of that loop: the devices, their order and their clients do not
    depend on the interleaving. *)
Theorem returned_is_a_beginning_of_the_full_result (w : World)
    (pending : list mdns.ServiceEntry) (err : option error)
    (schedule : list Thread) (s : Sys World) :
  run schedule (LookupAndConnect w pending err) = Some s ->
  extends (results (shared s))
    (results (collect pending (shared (LookupAndConnect w pending err))))
  /\ (forall r, main_pc s = Returned r ->
       extends r
         (results (collect pending (shared (LookupAndConnect w pending err)))))
  /\ (collector_pc s = Exited ->
      core (shared s)
      = core (collect pending (shared (LookupAndConnect w pending err)))).
Proof.
  intros Hrun.
  destruct (run_inv _ _ _ (sys_inv_start w pending err) Hrun)
    as [_ Hret _ _ _ _].
  destruct (run_flow _ _ _ (flow_inv_start w pending err) Hrun) as [_ Hcore].
  change (outstanding (LookupAndConnect w pending err))
    with (collect pending (shared (LookupAndConnect w pending err))) in Hcore.
  assert (Hres : extends (results (shared s))
            (results (collect pending (shared (LookupAndConnect w pending err))))).
  { replace (results (collect pending (shared (LookupAndConnect w pending err))))
      with (results (outstanding s)) by (unfold core in Hcore; congruence).
    apply results_outstanding. }
  split; [exact Hres|]. split.
  - intros r Hr. eapply extends_trans; [apply Hret, Hr | exact Hres].
  - intros Hex. rewrite <- Hcore. unfold outstanding. now rewrite Hex.
Qed.

(** X20. Every run can be carried on to the end: from every state a call
    can be in there are steps that take the function to its return and the
    goroutine out of its loop, with the channel empty, and then [results]
    holds what the collector loop makes of all the advertisements, also of
    those the function did not wait for. *)
Theorem every_run_can_be_completed (w : World) (pending : list mdns.ServiceEntry)
    (err : option error) (schedule : list Thread) (s : Sys World) :
  run schedule (LookupAndConnect w pending err) = Some s ->
  exists rest s',
    run (schedule ++ rest) (LookupAndConnect w pending err) = Some s'
    /\ finished s'
    /\ entriesCh s' = []
    /\ results (shared s')
       = results (collect pending (shared (LookupAndConnect w pending err))).
Proof.
  intros Hrun.
  pose proof (run_inv _ _ _ (sys_inv_start w pending err) Hrun) as Hinv.
  destruct (run_flow _ _ _ (flow_inv_start w pending err) Hrun) as [Hflow _].
  destruct (completion _ s eq_refl Hinv Hflow) as (rest & s' & Hrest & Hfin & _).
  exists rest, s'.
  assert (Hall : run (schedule ++ rest) (LookupAndConnect w pending err) = Some s')
    by now rewrite run_app, Hrun.
  destruct (run_flow _ _ _ (flow_inv_start w pending err) Hall) as [Hflow' Hcore].
  destruct Hfin as [Hret Hex].
  split; [exact Hall|]. split; [now split|].
  split; [apply (flow_exited s' Hflow' Hex)|].
  change (outstanding (LookupAndConnect w pending err))
    with (collect pending (shared (LookupAndConnect w pending err))) in Hcore.
  unfold outstanding in Hcore. rewrite Hex in Hcore.
  unfold core in Hcore. congruence.
Qed.

End ScheduleFacts.

(** ** Discovery: the advertisements are received in the order of delivery *)

Section ArrivalFacts.
Import strings url homecast.
Context {World : Type} `{Cast World}.

(** The advertisements a trace reports as detected, in order: one for each
    line the goroutine logs on a receive. *)
Definition detected (evs : list Event) : list mdns.ServiceEntry :=
  flat_map (fun ev => match ev with
                      | EvLog (LogServiceEntry e) => [e]
                      | _ => []
                      end) evs.

(** Where the advertisements of a lookup are: detected, in the channel, or
    still to be delivered, in this order; the entry the goroutine is at has
    been detected, and so has the entry of every device. *)
Record arrival_inv (delivered : list mdns.ServiceEntry) (s : Sys World) : Prop := {
  arr_order : delivered
              = (detected (trace (env (shared s)))
                 ++ entriesCh s ++ lookup_pending s)%list;
  arr_current : forall e fs, collector_pc s = AtFields e fs ->
                             In e (detected (trace (env (shared s))));
  arr_devices : forall d, In d (results (shared s)) ->
                          In (ServiceEntry d) (detected (trace (env (shared s))))
}.

Lemma detected_app (a b : list Event) :
  detected (a ++ b) = (detected a ++ detected b)%list.
Proof. apply flat_map_app. Qed.

Lemma record_detected (ev : Event) (st : Collector World) :
  detected [ev] = [] ->
  detected (trace (env (record ev st))) = detected (trace (env st)).
Proof.
  intros Hev. cbn [record env trace]. now rewrite detected_app, Hev, app_nil_r.
Qed.

Lemma collect_field_detected (e : mdns.ServiceEntry) (f : string)
    (st : Collector World) :
  detected (trace (env (collect_field e f st))) = detected (trace (env st)).
Proof.
  destruct (HasPrefix f googleHomeModelInfo) eqn:Hf.
  - rewrite collect_field_marker by exact Hf.
    destruct (client_Connect _ (world (env st))) as [[err|] w];
      cbn [env trace]; rewrite detected_app; cbn; now rewrite app_nil_r.
  - now rewrite collect_field_skip by exact Hf.
Qed.

Lemma collect_field_entry (e : mdns.ServiceEntry) (f : string)
    (st : Collector World) (d : CastDevice) :
  In d (results (collect_field e f st)) -> In d (results st) \/ ServiceEntry d = e.
Proof.
  destruct (HasPrefix f googleHomeModelInfo) eqn:Hf.
  - rewrite collect_field_marker by exact Hf.
    destruct (client_Connect _ (world (env st))) as [[err|] w];
      cbn [results]; [now left|].
    intros Hd. apply in_app_or in Hd as [Hd|[<-|[]]]; [now left | now right].
  - rewrite collect_field_skip by exact Hf. now left.
Qed.

Lemma arrival_inv_start (w : World) (pending : list mdns.ServiceEntry)
    (err : option error) :
  arrival_inv pending (LookupAndConnect w pending err).
Proof. constructor; cbn; [reflexivity | discriminate | intros d []]. Qed.

Lemma step_arrival_inv (delivered : list mdns.ServiceEntry) (t : Thread)
    (s s' : Sys World) :
  arrival_inv delivered s -> step t s = Some s' -> arrival_inv delivered s'.
Proof.
  intros [Hord Hcur Hdev]. destruct t; cbn [step].
  - unfold step_main. destruct (main_pc s) as [|err| | |r].
    + destruct (lookup_pending s) as [|e p] eqn:Hpend.
      * intros [= <-].
        constructor; cbn [shared entriesCh lookup_pending collector_pc];
          rewrite record_detected by reflexivity; assumption.
      * destruct (length (entriesCh s) <? entriesCh_cap)%nat; [|discriminate].
        intros [= <-].
        constructor; cbn [shared entriesCh lookup_pending collector_pc];
          try assumption.
        now rewrite <- app_assoc.
    + intros [= <-].
      constructor; cbn [shared entriesCh lookup_pending collector_pc];
        destruct err; rewrite ?record_detected by reflexivity; assumption.
    + destruct (entriesCh_closed s); [discriminate|]. intros [= <-].
      constructor; cbn [shared entriesCh lookup_pending collector_pc];
        rewrite record_detected by reflexivity; assumption.
    + intros [= <-]. now constructor.
    + discriminate.
  - unfold step_collector. destruct (collector_pc s) as [|e [|f fs]|] eqn:Hpc.
    + destruct (entriesCh s) as [|entry buffer] eqn:Hch.
      * destruct (entriesCh_closed s); [|discriminate]. intros [= <-].
        constructor;
          cbn [set_collector shared entriesCh lookup_pending collector_pc];
          [assumption | discriminate | assumption].
      * intros [= <-].
        constructor;
          cbn [set_collector shared entriesCh lookup_pending collector_pc
               record env trace results];
          rewrite detected_app; cbn [detected flat_map app].
        -- rewrite Hord, <- app_assoc. reflexivity.
        -- intros e fs [= <- _]. apply in_or_app. right. now left.
        -- intros d Hd. apply in_or_app. left. now apply Hdev.
    + intros [= <-].
      constructor;
        cbn [set_collector shared entriesCh lookup_pending collector_pc];
        [assumption | discriminate | assumption].
    + intros [= <-].
      constructor;
        cbn [set_collector shared entriesCh lookup_pending collector_pc];
        rewrite collect_field_detected.
      * assumption.
      * intros e' fs' [= <- _]. now apply (Hcur e (f :: fs)).
      * intros d Hd. apply collect_field_entry in Hd as [Hd| ->];
          [now apply Hdev | now apply (Hcur e (f :: fs))].
    + discriminate.
Qed.

Lemma run_arrival_inv (delivered : list mdns.ServiceEntry)
    (schedule : list Thread) (s s' : Sys World) :
  arrival_inv delivered s -> run schedule s = Some s' -> arrival_inv delivered s'.
Proof.
  revert s. induction schedule as [|t schedule IH]; intros s Hinv; cbn.
  - now intros [= <-].
  - destruct (step t s) as [s1|] eqn:Hstep; [|discriminate].
    apply IH. eapply step_arrival_inv; eassumption.
Qed.

(** X21. The channel is a queue and nothing is lost in it: in every run the
    advertisements the lookup delivers are, in the order of delivery, those
    the goroutine has logged as detected, then those in the channel, then
    those still to be sent. So when the function has left the lookup all but
    at most four (the capacity of the channel) have been received, when the
    goroutine leaves its loop all have been, and every device comes from an
    advertisement that the lookup delivered and the goroutine logged. *)
Theorem advertisements_are_received_in_order (w : World)
    (pending : list mdns.ServiceEntry) (err : option error)
    (schedule : list Thread) (s : Sys World) :
  run schedule (LookupAndConnect w pending err) = Some s ->
  pending = (detected (trace (env (shared s)))
             ++ entriesCh s ++ lookup_pending s)%list
  /\ (main_pc s <> AtLookup ->
      length pending
      <= length (detected (trace (env (shared s)))) + entriesCh_cap)
  /\ (collector_pc s = Exited -> detected (trace (env (shared s))) = pending)
  /\ (forall d, In d (results (shared s)) ->
                In (ServiceEntry d) (detected (trace (env (shared s))))
                /\ In (ServiceEntry d) pending).
Proof.
  intros Hrun.
  destruct (run_inv _ _ _ (sys_inv_start w pending err) Hrun)
    as [_ _ _ _ _ Hbound].
  destruct (run_flow _ _ _ (flow_inv_start w pending err) Hrun)
    as [[Hpend Hexit Hclosed] _].
  destruct (run_arrival_inv _ _ _ _ (arrival_inv_start w pending err) Hrun)
    as [Hord _ Hdev].
  split; [exact Hord|]. split; [|split].
  - intros Hpc. rewrite Hord at 1. rewrite (Hpend Hpc), app_nil_r, length_app.
    lia.
  - intros Hex. destruct (Hexit Hex) as [Hempty Hcl].
    rewrite Hord, Hempty, (Hpend (Hclosed Hcl)), !app_nil_r. reflexivity.
  - intros d Hd. split; [now apply Hdev|].
    rewrite Hord. apply in_or_app. left. now apply Hdev.
Qed.

End ArrivalFacts.

(** ** Instances in the demonstration household: the busy evening

    In the busy pass over the four advertisements of the evening the
    printer is passed over, the cellar refuses its connection, the hall gives
    two devices, and the function returns while the kitchen is still in the
    channel. *)

(** X9, instance. *)
Lemma channel_is_closed_once_witness :
  exists s,
    homecast.run Demo.busy_pass
      (homecast.LookupAndConnect tt Demo.evening None) = Some s
    /\ homecast.entriesCh_closed s = true
    /\ close_count (homecast.trace (homecast.env (homecast.shared s))) <= 1
    /\ (homecast.entriesCh_closed s = true
        <-> close_count (homecast.trace (homecast.env (homecast.shared s))) = 1).
Proof.
  eexists. split; [vm_compute; reflexivity|].
  split; [reflexivity|].
  destruct (channel_is_closed_once tt Demo.evening None Demo.busy_pass _
              ltac:(vm_compute; reflexivity)) as (Hle & Hiff & _).
  split; [exact Hle | exact Hiff].
Defined.

(** X10, instance: the two devices returned for the hall. *)
Lemma returned_devices_are_connected_witness :
  exists s,
    homecast.run Demo.busy_pass
      (homecast.LookupAndConnect tt Demo.evening None) = Some s
    /\ homecast.main_pc s
       = homecast.Returned [Demo.device Demo.hall 1; Demo.device Demo.hall 2]
    /\ forall d, In d [Demo.device Demo.hall 1; Demo.device Demo.hall 2] ->
         homecast.qualifies (homecast.ServiceEntry d)
         /\ host (homecast.client d) = AddrV4 (homecast.ServiceEntry d)
         /\ port (homecast.client d) = Port (homecast.ServiceEntry d)
         /\ In (EvNewClient (homecast.client d))
              (homecast.trace (homecast.env (homecast.shared s)))
         /\ In (EvConnect (homecast.client d) None)
              (homecast.trace (homecast.env (homecast.shared s))).
Proof.
  eexists. split; [vm_compute; reflexivity|].
  split; [reflexivity|].
  apply (returned_devices_are_connected tt Demo.evening None Demo.busy_pass _
           ltac:(vm_compute; reflexivity)).
  reflexivity.
Defined.

(** X11, instance: the hall is returned twice, with the clients 1 and 2. *)
Lemma devices_have_their_own_clients_witness :
  exists s,
    homecast.run Demo.busy_pass
      (homecast.LookupAndConnect tt Demo.evening None) = Some s
    /\ List.NoDup
         (map homecast.client [Demo.device Demo.hall 1; Demo.device Demo.hall 2]).
Proof.
  eexists. split; [vm_compute; reflexivity|].
  apply (proj2 (devices_have_their_own_clients tt Demo.evening None
                  Demo.busy_pass _ ltac:(vm_compute; reflexivity))).
  reflexivity.
Defined.

(** X12, instance: the client made for the cellar, refused, is not closed. *)
Lemma discovery_closes_nothing_witness :
  exists s,
    homecast.run Demo.busy_pass
      (homecast.LookupAndConnect tt Demo.evening None) = Some s
    /\ In (EvConnect (homecast.client (Demo.device Demo.cellar 0))
             (Some (errors_New "connection refused")))
          (homecast.trace (homecast.env (homecast.shared s)))
    /\ ~ In (EvClose (homecast.client (Demo.device Demo.cellar 0)))
            (homecast.trace (homecast.env (homecast.shared s))).
Proof.
  eexists. split; [vm_compute; reflexivity|].
  split; [vm_compute; tauto|].
  apply (discovery_closes_nothing tt Demo.evening None Demo.busy_pass _
           ltac:(vm_compute; reflexivity)).
Defined.

(** X13, instance: three clients made, three connections, two devices and
    one failure logged. *)
Lemma every_client_is_connected_once_witness :
  exists s,
    homecast.run Demo.busy_pass
      (homecast.LookupAndConnect tt Demo.evening None) = Some s
    /\ map id (new_clients (homecast.trace (homecast.env (homecast.shared s))))
       = [0; 1; 2]
    /\ new_clients (homecast.trace (homecast.env (homecast.shared s)))
       = map fst
           (connect_attempts (homecast.trace (homecast.env (homecast.shared s))))
    /\ length (homecast.results (homecast.shared s))
       + length (logged_failures
                   (homecast.trace (homecast.env (homecast.shared s))))
       = length (connect_attempts
                   (homecast.trace (homecast.env (homecast.shared s)))).
Proof.
  eexists. split; [vm_compute; reflexivity|].
  split; [reflexivity|].
  destruct (every_client_is_connected_once tt Demo.evening None Demo.busy_pass _
              ltac:(vm_compute; reflexivity)) as (Hconn & _ & _ & Hcount).
  split; [exact Hconn | exact Hcount].
Defined.

(** X14, instance: the four advertisements of the evening fit into the
    channel, and eight steps of the function alone return nothing. *)
Lemma return_can_be_empty_witness :
  length Demo.evening <= homecast.entriesCh_cap
  /\ exists s,
       homecast.run (repeat homecast.Main 8)
         (homecast.LookupAndConnect tt Demo.evening None) = Some s
       /\ homecast.main_pc s = homecast.Returned []
       /\ homecast.entriesCh s = Demo.evening.
Proof.
  assert (Hroom : length Demo.evening <= homecast.entriesCh_cap)
    by (unfold homecast.entriesCh_cap; cbn; lia).
  split; [exact Hroom|].
  destruct (return_can_be_empty tt Demo.evening None Hroom)
    as (s & Hrun & Hpc & Hch & _).
  exists s. split; [exact Hrun|]. split; [exact Hpc | exact Hch].
Defined.

(** X17, instance: at the end of the busy pass the function has returned
    and cannot move, and the goroutine can: the call is not over. *)
Lemma discovery_never_deadlocks_witness :
  exists s,
    homecast.run Demo.busy_pass
      (homecast.LookupAndConnect tt Demo.evening None) = Some s
    /\ homecast.step homecast.Main s = None
    /\ ((forall t, homecast.step t s = None) <-> finished s).
Proof.
  eexists. split; [vm_compute; reflexivity|].
  split; [reflexivity|].
  apply (discovery_never_deadlocks tt Demo.evening None Demo.busy_pass _
           ltac:(vm_compute; reflexivity)).
Defined.

(** X18, instance: the busy pass has 19 steps of the 25 a call over the
    evening can make. *)
Lemma discovery_terminates_witness :
  exists s,
    homecast.run Demo.busy_pass
      (homecast.LookupAndConnect tt Demo.evening None) = Some s
    /\ length Demo.busy_pass = 19
    /\ 5 + length Demo.evening + entries_steps Demo.evening = 25
    /\ length Demo.busy_pass
       <= 5 + length Demo.evening + entries_steps Demo.evening.
Proof.
  eexists. split; [vm_compute; reflexivity|].
  split; [reflexivity|]. split; [reflexivity|].
  apply (discovery_terminates tt Demo.evening None Demo.busy_pass _
           ltac:(vm_compute; reflexivity)).
Defined.

(** X19, instance: the two devices returned are the beginning of the three
    the evening gives. *)
Lemma returned_is_a_beginning_of_the_full_result_witness :
  exists s,
    homecast.run Demo.busy_pass
      (homecast.LookupAndConnect tt Demo.evening None) = Some s
    /\ homecast.results
         (homecast.collect Demo.evening
            (homecast.shared (homecast.LookupAndConnect tt Demo.evening None)))
       = [Demo.device Demo.hall 1; Demo.device Demo.hall 2;
          Demo.device Demo.kitchen 3]
    /\ extends [Demo.device Demo.hall 1; Demo.device Demo.hall 2]
         (homecast.results
            (homecast.collect Demo.evening
               (homecast.shared (homecast.LookupAndConnect tt Demo.evening None)))).
Proof.
  eexists. split; [vm_compute; reflexivity|].
  split; [vm_compute; reflexivity|].
  destruct (returned_is_a_beginning_of_the_full_result tt Demo.evening None
              Demo.busy_pass _ ltac:(vm_compute; reflexivity)) as (_ & Hret & _).
  apply Hret. reflexivity.
Defined.

(** X20, instance: the busy pass can be carried on until the kitchen too is
    in [results]. *)
Lemma every_run_can_be_completed_witness :
  exists rest s',
    homecast.run (Demo.busy_pass ++ rest)
      (homecast.LookupAndConnect tt Demo.evening None) = Some s'
    /\ finished s'
    /\ homecast.entriesCh s' = []
    /\ homecast.results (homecast.shared s')
       = homecast.results
           (homecast.collect Demo.evening
              (homecast.shared (homecast.LookupAndConnect tt Demo.evening None))).
Proof.
  apply (every_run_can_be_completed tt Demo.evening None Demo.busy_pass _
           ltac:(vm_compute; reflexivity)).
Defined.

(** X21, instance: at the end of the busy pass the printer, the cellar and
    the hall have been detected, and the kitchen is in the channel. *)
Lemma advertisements_are_received_in_order_witness :
  exists s,
    homecast.run Demo.busy_pass
      (homecast.LookupAndConnect tt Demo.evening None) = Some s
    /\ detected (homecast.trace (homecast.env (homecast.shared s)))
       = [Demo.printer; Demo.cellar; Demo.hall]
    /\ homecast.entriesCh s = [Demo.kitchen]
    /\ Demo.evening
       = (detected (homecast.trace (homecast.env (homecast.shared s)))
          ++ homecast.entriesCh s ++ homecast.lookup_pending s)%list.
Proof.
  eexists. split; [vm_compute; reflexivity|].
  split; [reflexivity|]. split; [reflexivity|].
  apply (advertisements_are_received_in_order tt Demo.evening None
           Demo.busy_pass _ ltac:(vm_compute; reflexivity)).
Defined.

(** ** [Connect] on a device that discovery returned *)

Section ReconnectFacts.
Import strings url homecast.
Context {World : Type} `{Cast World}.

(** X22. A device that [LookupAndConnect] returns is already connected, and
    [Connect] connects it once more: in every run, discovery has asked for
    the connection of each client exactly once (no client occurs twice among
    the attempts, and the attempt for the client of a returned device was
    accepted), and [Connect] on a returned device adds a second attempt for
    the same client, whose answer it returns. *)
Theorem Connect_connects_a_returned_device_again (w : World)
    (pending : list mdns.ServiceEntry) (err : option error)
    (schedule : list Thread) (s : Sys World) (r : list CastDevice)
    (d : CastDevice) :
  run schedule (LookupAndConnect w pending err) = Some s ->
  main_pc s = Returned r -> In d r ->
  List.NoDup (map fst (connect_attempts (trace (env (shared s)))))
  /\ In (client d, None) (connect_attempts (trace (env (shared s))))
  /\ fst (Connect d (env (shared s)))
     = fst (client_Connect (client d) (world (env (shared s))))
  /\ connect_attempts (trace (snd (Connect d (env (shared s)))))
     = (connect_attempts (trace (env (shared s)))
        ++ [(client d, fst (Connect d (env (shared s))))])%list
  /\ ~ List.NoDup
         (map fst (connect_attempts (trace (snd (Connect d (env (shared s))))))).
Proof.
  intros Hrun Hr Hd.
  destruct (run_inv _ _ _ (sys_inv_start w pending err) Hrun)
    as [_ Hret _ _ _ _].
  destruct (run_records_inv _ _ _ (records_inv_start w pending err) Hrun)
    as [_ Hids Hconn Hdev _ _].
  assert (Hin : In d (results (shared s)))
    by (eapply extends_In; [apply Hret|]; eassumption).
  destruct (Hdev d Hin) as (_ & Hok & _).
  apply connect_attempts_In in Hok.
  assert (Hattempts :
    connect_attempts (trace (snd (Connect d (env (shared s)))))
    = (connect_attempts (trace (env (shared s)))
       ++ [(client d, fst (Connect d (env (shared s))))])%list).
  { unfold Connect, call.
    destruct (client_Connect (client d) (world (env (shared s)))) as [e w'].
    cbn [snd fst trace]. now rewrite connect_attempts_app. }
  split; [|split; [exact Hok|split; [|split; [exact Hattempts|]]]].
  - rewrite <- Hconn. apply (NoDup_map_inv id). rewrite Hids. apply seq_NoDup.
  - unfold Connect, call.
    now destruct (client_Connect (client d) (world (env (shared s)))).
  - rewrite Hattempts, map_app. cbn [map fst]. intros Hdup.
    apply NoDup_remove_2 in Hdup. apply Hdup. rewrite app_nil_r.
    apply in_map_iff. now exists (client d, None).
Qed.

End ReconnectFacts.

(** X22, instance: the first device returned for the hall, whose client got
    the identity 1, is connected a second time. *)
Lemma Connect_connects_a_returned_device_again_witness :
  exists s,
    homecast.run Demo.busy_pass
      (homecast.LookupAndConnect tt Demo.evening None) = Some s
    /\ homecast.main_pc s
       = homecast.Returned [Demo.device Demo.hall 1; Demo.device Demo.hall 2]
    /\ In (Demo.device Demo.hall 1)
          [Demo.device Demo.hall 1; Demo.device Demo.hall 2]
    /\ connect_attempts
         (homecast.trace
            (snd (homecast.Connect (Demo.device Demo.hall 1)
                    (homecast.env (homecast.shared s)))))
       = (connect_attempts (homecast.trace (homecast.env (homecast.shared s)))
          ++ [(homecast.client (Demo.device Demo.hall 1),
               fst (homecast.Connect (Demo.device Demo.hall 1)
                      (homecast.env (homecast.shared s))))])%list.
Proof.
  eexists. split; [vm_compute; reflexivity|].
  split; [reflexivity|].
  assert (Hd : In (Demo.device Demo.hall 1)
                  [Demo.device Demo.hall 1; Demo.device Demo.hall 2])
    by (left; reflexivity).
  split; [exact Hd|].
  destruct (Connect_connects_a_returned_device_again tt Demo.evening None
              Demo.busy_pass _ _ (Demo.device Demo.hall 1)
              ltac:(vm_compute; reflexivity) eq_refl Hd)
    as (_ & _ & _ & Hattempts & _).
  exact Hattempts.
Defined.
